(** * make_wordcloud: a shallow embedding of scripts/make_wordcloud.py

    The script builds a word cloud from the LaTeX or PDF files of a folder.
    This development embeds its two text functions, [_strip_latex] and
    [_clean_text], and its driver [main], and states the properties of the
    specification over them.

    Python values are modelled as follows.
    - A [str] is the list of its Unicode code points ([N]).
    - [re.sub] is a backtracking matcher over the fragment of the regular
      expression syntax that the script uses; each pattern of the script is
      written as a term of that syntax.
    - A [Counter] is an association list in insertion order, as a Python
      dict is.
    - A [set] of words is a [gset].
    - The file system, the two optional dependencies and the Unicode case
      tables are fields of an environment record. *)

From Stdlib Require Import ZArith NArith List String Ascii Lia Bool.
From stdpp Require Import base decidable option list sorting countable gmap.

Local Open Scope N_scope.

(** ** Strings as code point lists *)

Definition char := N.
Definition str := list char.

(** The code points of a literal whose characters are all ASCII. *)
Fixpoint lit (s : string) : str :=
  match s with
  | EmptyString => []
  | String a s' => N_of_ascii a :: lit s'
  end.

Definition LF : char := 10.
Definition SP : char := 32.

Definition in_range (lo hi c : char) : bool := (lo <=? c) && (c <=? hi).

Definition is_upper (c : char) : bool := in_range 65 90 c.    (* A-Z *)
Definition is_lower (c : char) : bool := in_range 97 122 c.   (* a-z *)
Definition is_letter (c : char) : bool := is_upper c || is_lower c.

(** Python's notion of white space for [str]: the characters for which
    [str.isspace] holds.  [\s] in a [str] pattern, [str.strip] and
    [str.split] without separator all use this set. *)
Definition is_space (c : char) : bool :=
  in_range 9 13 c || in_range 28 31 c || (c =? 32) || (c =? 133)
  || (c =? 160) || (c =? 5760) || in_range 8192 8202 c || (c =? 8232)
  || (c =? 8233) || (c =? 8239) || (c =? 8287) || (c =? 12288).

(** ** The regular expression fragment of the script

    Repetition is only ever applied to a single character set in the
    script ([.*], [.*?], [[a-zA-Z]+], [[^\]]*], [[^}]*], [\s+]), so the
    repetition constructors take a character set. *)

Inductive regex : Type :=
| Chr (c : char)                 (* a literal character *)
| Cls (p : char → bool)          (* a character set, or [.] *)
| Bol                            (* [^] under (?m) *)
| Eol                            (* [$] under (?m) *)
| Seq (r1 r2 : regex)
| Alt (r1 r2 : regex)            (* [r1|r2], left alternative first *)
| Opt (r : regex)                (* [r?], greedy *)
| Star (p : char → bool)         (* [p*], greedy *)
| Plus (p : char → bool)         (* [p+], greedy *)
| StarLazy (p : char → bool).    (* [p*?] *)

(** A literal word, as a sequence of literal characters. *)
Fixpoint Word (s : str) (r : regex) : regex :=
  match s with
  | [] => r
  | c :: s' => Seq (Chr c) (Word s' r)
  end.

(** [.] without and with [re.S]. *)
Definition dot : char → bool := fun c => negb (c =? LF).
Definition dot_all : char → bool := fun _ => true.

(** The matcher state is the character just before the current position
    ([None] at the start of the text) and the text that remains. *)
Definition at_bol (prev : option char) : bool :=
  match prev with
  | None => true
  | Some c => c =? LF
  end.

Definition at_eol (s : str) : bool :=
  match s with
  | [] => true
  | c :: _ => c =? LF
  end.

Definition cont := option char → str → option str.

Definition or_else {A} (x : option A) (y : option A) : option A :=
  match x with
  | Some _ => x
  | None => y
  end.

(** Greedy repetition: take a character of the set if there is one, and
    fall back to the continuation when the rest fails. *)
Fixpoint greedy (p : char → bool) (k : cont) (prev : option char) (s : str)
  : option str :=
  match s with
  | c :: s' =>
      if p c then or_else (greedy p k (Some c) s') (k prev s) else k prev s
  | [] => k prev s
  end.

(** Lazy repetition: try the continuation first, take a character only when
    it fails. *)
Fixpoint lazy (p : char → bool) (k : cont) (prev : option char) (s : str)
  : option str :=
  match k prev s with
  | Some r => Some r
  | None =>
      match s with
      | c :: s' => if p c then lazy p k (Some c) s' else None
      | [] => None
      end
  end.

(** [exec r prev s k] matches [r] at the current position and passes the
    position after the match to [k]; alternatives are tried in the order
    of Python's backtracking matcher.  The result is the text left after
    the whole match. *)
Fixpoint exec (r : regex) (prev : option char) (s : str) (k : cont)
  : option str :=
  match r with
  | Chr c =>
      match s with
      | x :: s' => if x =? c then k (Some x) s' else None
      | [] => None
      end
  | Cls p =>
      match s with
      | x :: s' => if p x then k (Some x) s' else None
      | [] => None
      end
  | Bol => if at_bol prev then k prev s else None
  | Eol => if at_eol s then k prev s else None
  | Seq r1 r2 => exec r1 prev s (fun prev' s' => exec r2 prev' s' k)
  | Alt r1 r2 => or_else (exec r1 prev s k) (exec r2 prev s k)
  | Opt r1 => or_else (exec r1 prev s k) (k prev s)
  | Star p => greedy p k prev s
  | Plus p =>
      match s with
      | x :: s' => if p x then greedy p k (Some x) s' else None
      | [] => None
      end
  | StarLazy p => lazy p k prev s
  end.

(** The number of characters of the match of [r] that starts at the current
    position, if there is one. *)
Definition match_len (r : regex) (prev : option char) (s : str) : option nat :=
  match exec r prev s (fun _ rest => Some rest) with
  | Some rest => Some (length s - length rest)%nat
  | None => None
  end.

(** [re.sub]: scan from left to right; where the pattern matches, emit the
    replacement and resume after the match; elsewhere copy the character.
    [skip] counts the characters of the current match still to be dropped.
    An empty match emits the replacement and copies the character; no
    pattern of the script matches the empty string. *)
Fixpoint sub_scan (r : regex) (repl : str) (skip : nat) (prev : option char)
  (s : str) : str :=
  match skip with
  | S n =>
      match s with
      | c :: s' => sub_scan r repl n (Some c) s'
      | [] => []
      end
  | O =>
      match match_len r prev s with
      | Some (S n) =>
          repl ++ match s with
                  | c :: s' => sub_scan r repl n (Some c) s'
                  | [] => []
                  end
      | Some O =>
          repl ++ match s with
                  | c :: s' => c :: sub_scan r repl O (Some c) s'
                  | [] => []
                  end
      | None =>
          match s with
          | c :: s' => c :: sub_scan r repl O (Some c) s'
          | [] => []
          end
      end
  end.

Definition re_sub (r : regex) (repl : str) (s : str) : str :=
  sub_scan r repl O None s.

(** [str.replace] for a one-character pattern. *)
Definition replace_chr (c : char) (repl : str) (s : str) : str :=
  flat_map (fun x => if x =? c then repl else [x]) s.

(** ** [_strip_latex] *)

Definition BACKSLASH : char := 92.
Definition PERCENT : char := 37.
Definition DOLLAR : char := 36.

(** [(?m)^%.*$] *)
Definition re_comment : regex :=
  Seq Bol (Seq (Chr PERCENT) (Seq (Star dot) Eol)).

(** [\$.*?\$] *)
Definition re_inline_math : regex :=
  Seq (Chr DOLLAR) (Seq (StarLazy dot) (Chr DOLLAR)).

(** [\\\[.*?\\\]] with [re.S] *)
Definition re_display_math : regex :=
  Seq (Chr BACKSLASH) (Seq (Chr 91)
    (Seq (StarLazy dot_all) (Seq (Chr BACKSLASH) (Chr 93)))).

(** [\\(cite|ref|label|eqref|footnote|url|href)\{.*?\}] *)
Definition re_ref_command : regex :=
  let tail := Seq (Chr 123) (Seq (StarLazy dot) (Chr 125)) in
  Seq (Chr BACKSLASH)
    (Alt (Word (lit "cite") tail)
    (Alt (Word (lit "ref") tail)
    (Alt (Word (lit "label") tail)
    (Alt (Word (lit "eqref") tail)
    (Alt (Word (lit "footnote") tail)
    (Alt (Word (lit "url") tail)
         (Word (lit "href") tail))))))).

(** [\\[a-zA-Z]+\*?(?:\[[^\]]*\])?(?:\{[^}]*\})?] *)
Definition re_command : regex :=
  Seq (Chr BACKSLASH) (Seq (Plus is_letter) (Seq (Opt (Chr 42))
    (Seq (Opt (Seq (Chr 91) (Seq (Star (fun c => negb (c =? 93))) (Chr 93))))
         (Opt (Seq (Chr 123) (Seq (Star (fun c => negb (c =? 125))) (Chr 125))))))).

Definition drop_comments (text : str) : str := re_sub re_comment [SP] text.

Definition _strip_latex (text : str) : str :=
  (* Drop comments. *)
  let text := drop_comments text in
  (* Remove math blocks. *)
  let text := re_sub re_inline_math [SP] text in
  let text := re_sub re_display_math [SP] text in
  (* Remove common commands and their args. *)
  let text := re_sub re_ref_command [SP] text in
  (* Remove remaining commands like \section{...} *)
  let text := re_sub re_command [SP] text in
  (* Remove braces leftover. *)
  replace_chr 125 [SP] (replace_chr 123 [SP] text).

(** ** String methods *)

Fixpoint drop_while {A} (p : A → bool) (l : list A) : list A :=
  match l with
  | [] => []
  | x :: l' => if p x then drop_while p l' else l
  end.

(** [str.strip()] removes white space at both ends. *)
Definition lstrip (s : str) : str := drop_while is_space s.
Definition rstrip (s : str) : str := rev (drop_while is_space (rev s)).
Definition strip (s : str) : str := rstrip (lstrip s).

(** [s.split(sep)] for a one-character separator: the pieces between the
    occurrences of [sep]; there is always at least one piece. *)
Fixpoint split (sep : char) (s : str) : list str :=
  match s with
  | [] => [[]]
  | c :: s' =>
      if c =? sep then [] :: split sep s'
      else match split sep s' with
           | w :: ws => (c :: w) :: ws
           | [] => [[c]]
           end
  end.

(** [sep.join(ws)] for a one-character separator. *)
Fixpoint join (sep : char) (ws : list str) : str :=
  match ws with
  | [] => []
  | [w] => w
  | w :: ws' => w ++ sep :: join sep ws'
  end.

(** The line boundaries of [str.splitlines]. *)
Definition is_linebreak (c : char) : bool :=
  in_range 10 13 c || in_range 28 30 c || (c =? 133) || (c =? 8232)
  || (c =? 8233).

(** [s.splitlines()]; [after_cr] holds right after a carriage return, whose
    line feed belongs to the same boundary. *)
Fixpoint lines_from (after_cr : bool) (s : str) : list str :=
  match s with
  | [] => []
  | c :: s' =>
      if after_cr && (c =? LF) then lines_from false s'
      else if is_linebreak c then [] :: lines_from (c =? 13) s'
      else match lines_from false s' with
           | l :: ls => (c :: l) :: ls
           | [] => [[c]]
           end
  end.

Definition splitlines (s : str) : list str := lines_from false s.

Definition is_ascii (c : char) : bool := c <? 128.

Definition ascii_lower (c : char) : char := if is_upper c then c + 32 else c.

(** [len(w) >= min_len] *)
Definition len_ge (min_len : Z) (w : str) : bool :=
  (min_len <=? Z.of_nat (length w))%Z.

Section Text.

(** [str.lower] on a text with a character outside ASCII follows the
    Unicode case tables, which are taken as given. *)
Variable unicode_lower : str → str.

(** [str.lower()]: an ASCII text is lowered character by character. *)
Definition lower (s : str) : str :=
  if forallb is_ascii s then map ascii_lower s else unicode_lower s.

(** ** [_clean_text] *)

(** [[^A-Za-z\s]] *)
Definition re_not_letter_or_space : regex :=
  Cls (fun c => negb (is_letter c || is_space c)).

(** [\s+] *)
Definition re_spaces : regex := Plus is_space.

(** The text just before it is split into words. *)
Definition normalize (text : str) : str :=
  (* Keep letters and spaces only, normalize whitespace. *)
  let text := re_sub re_not_letter_or_space [SP] text in
  lower (strip (re_sub re_spaces [SP] text)).

Definition _clean_text (text : str) (min_len : Z) : list str :=
  let text := normalize text in
  let words := List.filter (len_ge min_len) (split SP text) in
  words.

End Text.

(** ** Counting *)

(** A [Counter]: the distinct words in order of first occurrence, each with
    its number of occurrences. *)
Definition counter := list (str * nat).

Fixpoint incr (w : str) (m : counter) : counter :=
  match m with
  | [] => [(w, 1%nat)]
  | (k, n) :: m' =>
      if decide (k = w) then (k, S n) :: m' else (k, n) :: incr w m'
  end.

(** [Counter(words)] *)
Definition Counter (words : list str) : counter :=
  fold_left (fun m w => incr w m) words [].

(** [w in m] *)
Definition has_key (m : counter) (w : str) : Prop := w ∈ map fst m.

(** [m.get(w, d)] *)
Fixpoint get (m : counter) (w : str) (d : nat) : nat :=
  match m with
  | [] => d
  | (k, n) :: m' => if decide (k = w) then n else get m' w d
  end.

(** [words = [w for w in all_words if w not in stopwords]] *)
Definition remove_stopwords (stopwords : gset str) (all_words : list str)
  : list str :=
  filter (fun w => w ∉ stopwords) all_words.

(** ** Sorting *)

Section Sorting.

Context {A : Type} (lt : A → A → bool).

(** Insert [x] before the first element that is not below it. *)
Fixpoint insert_sorted (x : A) (l : list A) : list A :=
  match l with
  | [] => [x]
  | y :: l' => if lt y x then y :: insert_sorted x l' else x :: l
  end.

(** [sorted(l)]: a stable sort that only uses [<]. *)
Definition sorted (l : list A) : list A := fold_right insert_sorted [] l.

(** The comparison of two sequences: the first position where they
    differ decides, and a proper prefix comes first. *)
Fixpoint lex_ltb (x y : list A) : bool :=
  match x, y with
  | [], [] => false
  | [], _ :: _ => true
  | _ :: _, [] => false
  | a :: x', b :: y' =>
      if lt a b then true else if lt b a then false else lex_ltb x' y'
  end.

End Sorting.

Definition str_ltb : str → str → bool := lex_ltb N.ltb.

(** [m.most_common(n)]: the [n] entries with the highest counts, highest
    first, entries with equal counts in insertion order. *)
Definition by_count_desc (x y : str * nat) : bool := (snd y <? snd x)%nat.

Definition most_common (n : Z) (m : counter) : list (str * nat) :=
  take (Z.to_nat n) (sorted by_count_desc m).

(** ** The environment of a run *)

(** A path is the sequence of its components, as pathlib keeps it; paths
    compare component by component. *)
Definition path := list str.

Definition path_ltb : path → path → bool := lex_ltb str_ltb.

(** [p / name] *)
Definition child (p : path) (name : str) : path := p ++ [name].

(** What the file system holds at a path: a file with its text (for a
    LaTeX file, the text decoded with [errors="ignore"]) or a directory
    with the names of its entries. *)
Inductive node : Type :=
| File (text : str)
| Dir (names : list str).

Definition png := list N.

(** The [wordcloud] package: its stopword list, the image that
    [WordCloud(..., max_words=n).generate_from_frequencies(counts)]
    renders ([None] when it raises), and whether [wc.to_file(str(p))]
    writes the image ([false] when it raises). *)
Record wordcloud_lib : Type := {
  STOPWORDS : gset str;
  generate_from_frequencies : Z → counter → option png;
  to_file : path → png → bool
}.

(** What the script prints. *)
Inductive message : Type :=
| MissingWordcloud                      (* "Missing dependency: wordcloud" ... *)
| InputNotFound (input_dir : path)      (* "Input folder not found: ..." *)
| NoInputFiles (input_dir : path)       (* "No .tex or .pdf files found in: ..." *)
| StopwordsNotFound (stop_path : path)  (* "Stopwords file not found: ..." *)
| MissingPdfminer                       (* "Missing dependency: pdfminer.six" ... *)
| Saved (output_path : path)            (* "Saved word cloud to: ..." *)
| TopWords (top : list (str * nat))     (* "Top words: w(c), ..." *)
| TopHeader (n : Z)                     (* "Top n after filtering:" *)
| TopLine (word : str) (count : nat)
| DebugLine (word : str) (raw filtered : nat).


Record Env : Type := {
  (** [pathlib.Path(s)] *)
  Path : str → path;
  (** [Path(__file__).resolve().parent], the directory of the script *)
  script_dir : path;
  fs : path → option node;
  (** [from wordcloud import WordCloud, STOPWORDS]; [None] when it fails *)
  import_wordcloud : option wordcloud_lib;
  (** [from pdfminer.high_level import extract_text]; [None] when it fails;
      the function returns [None] when it raises *)
  import_pdfminer : option (path → option str);
  (** the case tables behind [str.lower] *)
  case_tables : str → str;
  (** whether [print] succeeds on a line of the report, given the lines of
      the report printed before it; it raises otherwise *)
  print_ok : list message → message → bool
}.

Record Args : Type := {
  input : str;
  output : str;
  min_len : Z;
  max_words : Z;
  print_top : Z;
  debug_words : str;
  stopwords : str;
  extra_stopwords : str
}.

(** The defaults of the argument parser. *)
Definition default_args : Args := {|
  input := lit "papers";
  output := lit "wordcloud.png";
  min_len := 3;
  max_words := 90;
  print_top := 0;
  debug_words := [];
  stopwords := [];
  extra_stopwords := []
|}.

(** ** Effects of a run *)

Inductive event : Type :=
| Print (m : message)
| ReadText (p : path)                   (* [p.read_text(...)] *)
| ExtractText (p : path)                (* [extract_text(str(p))] *)
| ToFile (p : path) (image : png).      (* [wc.to_file(str(p))] wrote the image *)

(** How a run ends: [main] returns a code, or an exception escapes. *)
Inductive status : Type :=
| Return (code : Z)
| Raised.

(** A step either yields a value or ends the run. *)
Inductive outcome (A : Type) : Type :=
| Value (a : A)
| Stop (st : status).
Arguments Value {A} a.
Arguments Stop {A} st.

(** A computation: the events it performs, in order, and its outcome. *)
Definition M (A : Type) : Type := list event * outcome A.

Definition ret {A} (a : A) : M A := ([], Value a).

Definition bind {A B} (m : M A) (f : A → M B) : M B :=
  match m with
  | (t, Value a) => let (t', o) := f a in (t ++ t', o)
  | (t, Stop st) => (t, Stop st)
  end.

#[export] Instance M_ret : MRet M := @ret.
#[export] Instance M_bind : MBind M := fun A B f m => bind m f.

Definition emit (ev : event) : M unit := ([ev], Value tt).
Definition print (m : message) : M unit := emit (Print m).
Definition return_ {A} (code : Z) : M A := ([], Stop (Return code)).
Definition raise {A} : M A := ([], Stop Raised).

(** Performs [f] on each element in order and collects the results. *)
Fixpoint for_each {A B} (f : A → M B) (l : list A) : M (list B) :=
  match l with
  | [] => mret []
  | x :: l' => y ← f x; ys ← for_each f l'; mret (y :: ys)
  end.

(** ** File system operations *)

(** [p.exists()] *)
Definition exists_ (e : Env) (p : path) : bool :=
  match fs e p with
  | Some _ => true
  | None => false
  end.

Definition ends_with (suffix s : str) : bool :=
  bool_decide (drop (length s - length suffix) s = suffix).

(** [p.glob("*" + ext)]: the entries of the directory [p] whose name ends
    with [ext]; nothing when [p] is not a directory. *)
Definition glob (e : Env) (p : path) (ext : str) : list path :=
  match fs e p with
  | Some (Dir names) => map (child p) (List.filter (ends_with ext) names)
  | _ => []
  end.

(** [p.read_text()]; raises when there is no file at [p]. *)
Definition read_text (e : Env) (p : path) : M str :=
  emit (ReadText p);;
  match fs e p with
  | Some (File text) => mret text
  | _ => raise
  end.

(** ** [main] *)

(** The truth value of a string or a list: it is not empty. *)
Definition truthy {A} (l : list A) : bool :=
  match l with
  | [] => false
  | _ :: _ => true
  end.

(** [w.strip().lower() for w in entries if w.strip()] *)
Definition entries_of (e : Env) (entries : list str) : list str :=
  map (fun w => lower (case_tables e) (strip w))
      (List.filter (fun w => truthy (strip w)) entries).

Definition input_dir (e : Env) (args : Args) : path := Path e (input args).

(** [sorted(input_dir.glob("*.tex"))] and [sorted(input_dir.glob("*.pdf"))] *)
Definition tex_files (e : Env) (args : Args) : list path :=
  sorted path_ltb (glob e (input_dir e args) (lit ".tex")).

Definition pdfs (e : Env) (args : Args) : list path :=
  sorted path_ltb (glob e (input_dir e args) (lit ".pdf")).

(** The stopwords file: the one named by [--stopwords], else the file
    [stopwords.txt] one directory above the script. *)
Definition stop_path (e : Env) (args : Args) : path :=
  if truthy (stopwords args) then Path e (stopwords args)
  else child (child (script_dir e) (lit "..")) (lit "stopwords.txt").

(** The words of [--extra-stopwords], separated by commas. *)
Definition extra_stopword_set (e : Env) (args : Args) : gset str :=
  if truthy (extra_stopwords args)
  then list_to_set (entries_of e (split 44 (extra_stopwords args)))
  else ∅.

(** The stopword set: the list of the library, the words of the stopwords
    file and the words of [--extra-stopwords]. *)
Definition load_stopwords (e : Env) (args : Args) (builtin : gset str)
  : M (gset str) :=
  from_file ←
    (if exists_ e (stop_path e args) then
       text ← read_text e (stop_path e args);
       mret (list_to_set (entries_of e (splitlines text)))
     else if truthy (stopwords args) then
       print (StopwordsNotFound (stop_path e args));;
       return_ 1
     else mret ∅);
  mret (builtin ∪ from_file ∪ extra_stopword_set e args).

(** The words of one LaTeX file. *)
Definition tex_words (e : Env) (args : Args) (tex : path) : M (list str) :=
  text ← read_text e tex;
  let text := _strip_latex text in
  mret (_clean_text (case_tables e) text (min_len args)).

(** The words of one PDF file. *)
Definition pdf_words (e : Env) (args : Args) (extract_text : path → option str)
  (pdf : path) : M (list str) :=
  emit (ExtractText pdf);;
  match extract_text pdf with
  | Some text => mret (_clean_text (case_tables e) text (min_len args))
  | None => raise
  end.

(** The words of all input files: of the LaTeX files when there are some,
    of the PDF files otherwise. *)
Definition all_words (e : Env) (args : Args) : M (list str) :=
  if truthy (tex_files e args) then
    ws ← for_each (tex_words e args) (tex_files e args);
    mret (concat ws)
  else
    match import_pdfminer e with
    | None => print MissingPdfminer;; return_ 1
    | Some extract_text =>
        ws ← for_each (pdf_words e args extract_text) (pdfs e args);
        mret (concat ws)
    end.

(** [raw_counts = Counter(all_words)] *)
Definition raw_counts (e : Env) (args : Args) : M counter :=
  ws ← all_words e args;
  mret (Counter ws).

(** The lines of the report: the saved path, the top 20 words, the
    [--print-top] listing and the [--debug-words] lines. *)
Definition report_lines (e : Env) (args : Args) (output_path : path)
  (raw counts : counter) : list message :=
  [Saved output_path; TopWords (most_common 20 counts)]
  ++ (if (print_top args =? 0)%Z then []
      else TopHeader (print_top args)
           :: map (fun wc => TopLine (fst wc) (snd wc))
                  (most_common (print_top args) counts))
  ++ (if truthy (debug_words args) then
        let targets := entries_of e (split 44 (debug_words args)) in
        map (fun word => DebugLine word (get raw word 0) (get counts word 0))
            targets
      else []).

(** Prints lines in order; a [print] that fails raises and ends the run.
    [ok] tells whether a [print] succeeds and [printed] holds the lines
    printed so far. *)
Fixpoint print_lines (ok : list message → message → bool)
  (printed lines : list message) : M unit :=
  match lines with
  | [] => mret tt
  | m :: lines' =>
      if ok printed m then
        print m;;
        print_lines ok (printed ++ [m]) lines'
      else raise
  end.

(** The printed report. *)
Definition report (e : Env) (args : Args) (output_path : path)
  (raw counts : counter) : M unit :=
  print_lines (print_ok e) [] (report_lines e args output_path raw counts).

(** The run from the collection of the words on, with the stopword set
    [stops]: count, render, write the image, report, return 0. *)
Definition process (e : Env) (args : Args) (wordcloud : wordcloud_lib)
  (stops : gset str) : M Z :=
  all ← all_words e args;
  let raw := Counter all in
  let words := remove_stopwords stops all in
  let counts := Counter words in
  image ←
    match generate_from_frequencies wordcloud (max_words args) counts with
    | Some image => mret image
    | None => raise
    end;
  let output_path := Path e (output args) in
  (if to_file wordcloud output_path image
   then emit (ToFile output_path image)
   else raise);;
  report e args output_path raw counts;;
  mret 0%Z.

(** The body of [main].  The messages of the failures that come before the
    image is written are taken to be printed; writing the image and
    printing the report can raise. *)
Definition main_body (e : Env) (args : Args) : M Z :=
  match import_wordcloud e with
  | None => print MissingWordcloud;; return_ 1
  | Some wordcloud =>
      if negb (exists_ e (input_dir e args)) then
        print (InputNotFound (input_dir e args));;
        return_ 1
      else if negb (truthy (tex_files e args)) && negb (truthy (pdfs e args))
      then
        print (NoInputFiles (input_dir e args));;
        return_ 1
      else
        stops ← load_stopwords e args (STOPWORDS wordcloud);
        process e args wordcloud stops
  end.

(** How a computation of an exit code ends the run. *)
Definition finish (m : M Z) : list event * status :=
  match m with
  | (t, Value code) => (t, Return code)
  | (t, Stop st) => (t, st)
  end.

(** A run of the script: its events and how it ends. *)
Definition main (e : Env) (args : Args) : list event * status :=
  finish (main_body e args).

Definition events (r : list event * status) : list event := fst r.
Definition exit_status (r : list event * status) : status := snd r.

(** The run writes an image. *)
Definition writes_png (r : list event * status) : Prop :=
  ∃ p image, ToFile p image ∈ events r.

(** * Definitions for the statements

    The functions and predicates below are not part of the script; the
    properties are stated and proved with them. *)

Definition id_cont : cont := fun _ rest => Some rest.

(** The least number of characters that a match of [r] takes. *)
Fixpoint min_width (r : regex) : nat :=
  match r with
  | Chr _ | Cls _ | Plus _ => 1
  | Bol | Eol | Opt _ | Star _ | StarLazy _ => 0
  | Seq r1 r2 => min_width r1 + min_width r2
  | Alt r1 r2 => Nat.min (min_width r1) (min_width r2)
  end.

(** A continuation that leaves at least [d] characters behind it. *)
Definition leaves (d : nat) (k : cont) : Prop :=
  ∀ prev s rest, k prev s = Some rest → (length rest + d ≤ length s)%nat.

(** The number of leading characters of [s] in the set [p]. *)
Fixpoint span_len (p : char → bool) (s : str) : nat :=
  match s with
  | [] => O
  | c :: s' => if p c then S (span_len p s') else O
  end.

(** Runs of white space become one space: [in_run] holds inside a run whose
    space has been written. *)
Fixpoint squeeze (in_run : bool) (s : str) : str :=
  match s with
  | [] => []
  | c :: s' =>
      if is_space c then
        if in_run then squeeze true s' else SP :: squeeze true s'
      else c :: squeeze false s'
  end.

(** The maximal runs of characters of [s] that are not white space. *)
Fixpoint words (s : str) : list str :=
  match s with
  | [] => []
  | c :: s' =>
      if is_space c then words s'
      else match s' with
           | [] => [[c]]
           | d :: _ =>
               if is_space d then [c] :: words s'
               else match words s' with
                    | w :: ws => (c :: w) :: ws
                    | [] => [[c]]
                    end
           end
  end.

Definition no_space (w : str) : Prop := Forall (fun c => is_space c = false) w.

(** A word: one or more lowercase ASCII letters. *)
Definition word_ok (w : str) : Prop :=
  w ≠ [] ∧ Forall (fun c => is_lower c = true) w.

(** The first substitution of [_clean_text]. *)
Definition keep (text : str) : str :=
  map (fun c => if is_letter c || is_space c then c else SP) text.

(** A token as the specification describes it: one or more lowercase
    ASCII letters, at least [min_len] of them. *)
Definition token_ok (min_len : Z) (w : str) : Prop :=
  word_ok w ∧ (min_len ≤ Z.of_nat (length w))%Z.

(** The case tables are not consulted on ASCII text; the examples run with
    a table that changes nothing. *)
Definition no_case_tables : str → str := fun s => s.

Definition example_input : str :=
  lit "\cite{foo} Hello World % a comment" ++ [LF] ++ lit "$x^2$ more text".

(** Where the scan for comments stands: at the start of a line, inside a
    line that is kept, or inside a comment that is being dropped. *)
Inductive scan_mode : Type := AtLineStart | InLine | InComment.

Definition after (c : char) : scan_mode :=
  if c =? LF then AtLineStart else InLine.

Fixpoint scan_comments (m : scan_mode) (s : str) : str :=
  match s with
  | [] => []
  | c :: s' =>
      match m with
      | AtLineStart =>
          if c =? PERCENT then SP :: scan_comments InComment s'
          else c :: scan_comments (after c) s'
      | InLine => c :: scan_comments (after c) s'
      | InComment =>
          if c =? LF then c :: scan_comments AtLineStart s'
          else scan_comments InComment s'
      end
  end.

Definition mode_at (prev : option char) : scan_mode :=
  if at_bol prev then AtLineStart else InLine.

(** A line that starts with a percent sign becomes one space. *)
Definition blank_comment (l : str) : str :=
  match l with
  | c :: _ => if c =? PERCENT then [SP] else l
  | [] => l
  end.

(** A line whose first character that is not white space is a percent
    sign. *)
Definition is_comment_line (l : str) : bool :=
  match lstrip l with
  | c :: _ => c =? PERCENT
  | [] => false
  end.

(** The number of occurrences of [w] in [l]. *)
Fixpoint occ (w : str) (l : list str) : nat :=
  match l with
  | [] => O
  | x :: l' => if decide (x = w) then S (occ w l') else occ w l'
  end.

(** [a] is not above [b] in the order [lt]. *)
Definition not_above {A} (lt : A → A → bool) (a b : A) : Prop := lt b a = false.








(** The message of a missing stopwords file. *)
Definition is_stopwords_not_found (ev : event) : Prop :=
  ∃ p, ev = Print (StopwordsNotFound p).

(** A folder [papers] with two LaTeX files and a PDF file, no stopwords
    file above the script. *)
Definition demo_names : list str :=
  [lit "b.tex"; lit "a.tex"; lit "c.pdf"; lit "notes.txt"].

Definition demo_fs (p : path) : option node :=
  if decide (p = [lit "papers"]) then Some (Dir demo_names)
  else if decide (p = [lit "papers"; lit "a.tex"])
  then Some (File (lit "\section{Intro} The quantum dots % of the paper"))
  else if decide (p = [lit "papers"; lit "b.tex"])
  then Some (File (lit "the $x$ model \cite{k} of quantum wells"))
  else if decide (p = [lit "README"]) then Some (File (lit "read me"))
  else None.

Definition demo_wordcloud : wordcloud_lib := {|
  STOPWORDS := {[ lit "the"; lit "of" ]};
  generate_from_frequencies := fun _ counts =>
    if truthy counts then Some [137; 80; 78; 71] else None;
  to_file := fun _ _ => true
|}.

Definition demo_extract_text (p : path) : option str := Some (lit "pdf text").

Definition demo_env : Env := {|
  Path := fun s => [s];
  script_dir := [lit "site"; lit "scripts"];
  fs := demo_fs;
  import_wordcloud := Some demo_wordcloud;
  import_pdfminer := Some demo_extract_text;
  case_tables := no_case_tables;
  print_ok := fun _ _ => true
|}.

(** The same folder next to a stopwords file, with another stopword list
    in the library. *)
Definition demo_env_stopwords : Env := {|
  Path := fun s => [s];
  script_dir := [lit "site"; lit "scripts"];
  fs := fun p =>
    if decide (p = [lit "stop.txt"]) then Some (File (lit "quantum"))
    else demo_fs p;
  import_wordcloud :=
    Some {| STOPWORDS := ∅;
            generate_from_frequencies := fun _ _ => Some [];
            to_file := fun _ _ => true |};
  import_pdfminer := Some demo_extract_text;
  case_tables := no_case_tables;
  print_ok := fun _ _ => true
|}.

Definition args_stopwords (file extra : str) : Args := {|
  input := lit "papers";
  output := lit "wordcloud.png";
  min_len := 3;
  max_words := 90;
  print_top := 0;
  debug_words := lit "the,quantum";
  stopwords := file;
  extra_stopwords := extra
|}.

Definition args_input (dir : str) : Args := {|
  input := dir;
  output := lit "wordcloud.png";
  min_len := 3;
  max_words := 90;
  print_top := 0;
  debug_words := [];
  stopwords := [];
  extra_stopwords := []
|}.

(** A backslash directly followed by an ASCII letter: the start of a
    LaTeX command. *)
Fixpoint has_command (s : str) : bool :=
  match s with
  | [] => false
  | c :: s' =>
      match s' with
      | d :: _ => ((c =? BACKSLASH) && is_letter d) || has_command s'
      | [] => false
      end
  end.

(** The characters that the patterns of [_strip_latex] look for. *)
Definition is_latex_special (c : char) : bool :=
  (c =? PERCENT) || (c =? DOLLAR) || (c =? BACKSLASH) || (c =? 123)
  || (c =? 125).

(** A pattern that only matches at the character [c]. *)
Definition starts_at (c : char) (r : regex) : Prop :=
  ∀ prev s, head s ≠ Some c → match_len r prev s = None.

(** A continuation that accepts every position. *)
Definition accepts_all (k : cont) : Prop := ∀ prev s, is_Some (k prev s).

(** The maximal runs of characters of [s] that are in the set [p]. *)
Fixpoint runs (p : char → bool) (s : str) : list str :=
  match s with
  | [] => []
  | c :: s' =>
      if p c then
        match s' with
        | [] => [[c]]
        | d :: _ =>
            if p d then
              match runs p s' with
              | w :: ws => (c :: w) :: ws
              | [] => [[c]]
              end
            else [c] :: runs p s'
        end
      else runs p s'
  end.

(** An event that writes no image. *)
Definition no_image (ev : event) : Prop := ∀ p image, ev ≠ ToFile p image.

(** How a run ends when it fails: it returns 1, or an exception escapes. *)
Definition failure (st : status) : Prop := st = Return 1 ∨ st = Raised.

(** A step that writes no image and, if it ends the run, ends it with a
    failure. *)
Definition quiet {A} (m : M A) : Prop :=
  Forall no_image m.1 ∧ ∀ st, m.2 = Stop st → failure st.

(** A run that writes an image, only at [out], and then returns 0 unless
    an exception escapes. *)
Definition completes (out : path) (m : M Z) : Prop :=
  (m.2 = Value 0%Z ∨ m.2 = Stop Raised)
  ∧ (∃ image, ToFile out image ∈ m.1)
  ∧ (∀ p image, ToFile p image ∈ m.1 → p = out).

(** A run that writes no image and ends with a failure. *)
Definition aborts (m : M Z) : Prop :=
  Forall no_image m.1 ∧ ∃ st, m.2 = Stop st ∧ failure st.

(** The files that a run may touch: it reads the stopwords file and the
    listed LaTeX files, and it extracts the listed PDF files when there is
    no LaTeX file. *)
Definition touches_inputs_only (e : Env) (args : Args) (ev : event) : Prop :=
  match ev with
  | ReadText p => p = stop_path e args ∨ p ∈ tex_files e args
  | ExtractText p => tex_files e args = [] ∧ p ∈ pdfs e args
  | _ => True
  end.

(** The environment [e] with another outcome of the pdfminer import. *)
Definition with_pdfminer (pdfminer : option (path → option str)) (e : Env)
  : Env := {|
  Path := Path e;
  script_dir := script_dir e;
  fs := fs e;
  import_wordcloud := import_wordcloud e;
  import_pdfminer := pdfminer;
  case_tables := case_tables e;
  print_ok := print_ok e
|}.

(** An event that reports no word of [stops] among the top words. *)
Definition reports_none_of (stops : gset str) (ev : event) : Prop :=
  match ev with
  | Print (TopWords top) => Forall (fun wc => wc.1 ∉ stops) top
  | Print (TopLine word _) => word ∉ stops
  | _ => True
  end.

(** A debug line whose filtered count is the raw count or 0. *)
Definition debug_consistent (ev : event) : Prop :=
  match ev with
  | Print (DebugLine _ raw filtered) =>
      (filtered ≤ raw)%nat ∧ (filtered = raw ∨ filtered = O)
  | _ => True
  end.

(** A line of top words with at most 20 entries, highest count first. *)
Definition top_words_ok (ev : event) : Prop :=
  match ev with
  | Print (TopWords top) =>
      (length top ≤ 20)%nat ∧ Sorted (fun x y => (y.2 ≤ x.2)%nat) top
  | _ => True
  end.

(** The events of a run that are not lines of the report. *)
Definition before_report (ev : event) : Prop :=
  match ev with
  | Print (TopWords _) | Print (TopLine _ _) | Print (DebugLine _ _ _) => False
  | _ => True
  end.

(** The folder of [demo_env] on a terminal that takes the first line of
    the report and fails on the next. *)
Definition demo_env_closed_stdout : Env := {|
  Path := fun s => [s];
  script_dir := [lit "site"; lit "scripts"];
  fs := demo_fs;
  import_wordcloud := Some demo_wordcloud;
  import_pdfminer := Some demo_extract_text;
  case_tables := no_case_tables;
  print_ok := fun printed _ => negb (truthy printed)
|}.

(** The folder of [demo_env] with a [wordcloud] package that cannot write
    the image. *)
Definition demo_env_no_write : Env := {|
  Path := fun s => [s];
  script_dir := [lit "site"; lit "scripts"];
  fs := demo_fs;
  import_wordcloud :=
    Some {| STOPWORDS := ∅;
            generate_from_frequencies := fun _ _ => Some [];
            to_file := fun _ _ => false |};
  import_pdfminer := Some demo_extract_text;
  case_tables := no_case_tables;
  print_ok := fun _ _ => true
|}.

(** * Properties *)

(** ** Characters *)

Lemma in_range_spec lo hi c : in_range lo hi c = true ↔ lo ≤ c ∧ c ≤ hi.
Proof.
  unfold in_range. rewrite andb_true_iff, !N.leb_le. reflexivity.
Qed.

Lemma is_letter_spec c :
  is_letter c = true ↔ (65 ≤ c ∧ c ≤ 90) ∨ (97 ≤ c ∧ c ≤ 122).
Proof.
  unfold is_letter, is_upper, is_lower.
  rewrite orb_true_iff, !in_range_spec. reflexivity.
Qed.

Lemma is_lower_spec c : is_lower c = true ↔ 97 ≤ c ∧ c ≤ 122.
Proof. apply in_range_spec. Qed.

Lemma in_range_out lo hi c : c < lo ∨ hi < c → in_range lo hi c = false.
Proof.
  intros H. apply not_true_is_false. rewrite in_range_spec. lia.
Qed.

Lemma eqb_out (a b : N) : a ≠ b → (a =? b) = false.
Proof. apply N.eqb_neq. Qed.

Lemma letter_not_space c : is_letter c = true → is_space c = false.
Proof.
  rewrite is_letter_spec. intros H. unfold is_space.
  rewrite !in_range_out by lia. rewrite !eqb_out by lia. reflexivity.
Qed.

Lemma space_is_space : is_space SP = true.
Proof. reflexivity. Qed.

Lemma lower_is_letter c : is_lower c = true → is_letter c = true.
Proof. unfold is_letter. intros ->. apply orb_true_r. Qed.

Lemma letter_is_ascii c : is_letter c = true → is_ascii c = true.
Proof.
  rewrite is_letter_spec. unfold is_ascii. rewrite N.ltb_lt. lia.
Qed.

Lemma ascii_lower_letter c : is_letter c = true → is_lower (ascii_lower c) = true.
Proof.
  rewrite is_letter_spec, is_lower_spec. unfold ascii_lower, is_upper.
  destruct (in_range 65 90 c) eqn:E.
  - apply in_range_spec in E. lia.
  - intros [H|H]; [|lia].
    apply in_range_spec in H. congruence.
Qed.

Lemma ascii_lower_lower c : is_lower c = true → ascii_lower c = c.
Proof.
  rewrite is_lower_spec. intros H. unfold ascii_lower, is_upper.
  rewrite in_range_out by lia. reflexivity.
Qed.

Lemma ascii_lower_space : ascii_lower SP = SP.
Proof. reflexivity. Qed.

(** ** Matches are not empty *)

Lemma greedy_leaves p d k : leaves d k → leaves d (greedy p k).
Proof.
  intros Hk prev s. revert prev.
  induction s as [|c s IH]; intros prev rest H; cbn [greedy] in H.
  - apply Hk in H. exact H.
  - destruct (p c); [|apply Hk in H; exact H].
    destruct (greedy p k (Some c) s) as [r|] eqn:E; cbn [or_else] in H.
    + injection H as ->. apply IH in E. cbn [length]. lia.
    + apply Hk in H. exact H.
Qed.

Lemma lazy_leaves p d k : leaves d k → leaves d (lazy p k).
Proof.
  intros Hk prev s. revert prev.
  induction s as [|c s IH]; intros prev rest H; cbn [lazy] in H.
  - destruct (k prev []) as [r|] eqn:E; [|discriminate].
    injection H as ->. apply Hk in E. exact E.
  - destruct (k prev (c :: s)) as [r|] eqn:E.
    + injection H as ->. apply Hk in E. exact E.
    + destruct (p c); [|discriminate]. apply IH in H. cbn [length]. lia.
Qed.

Lemma exec_leaves r :
  ∀ d k, leaves d k → leaves (d + min_width r) (fun prev s => exec r prev s k).
Proof.
  induction r as [c|p| | |r1 IH1 r2 IH2|r1 IH1 r2 IH2|r1 IH1|p|p|p];
    intros d k Hk prev s rest H; cbn [exec min_width] in *.
  - destruct s as [|x s]; [discriminate|]. destruct (x =? c); [|discriminate].
    apply Hk in H. cbn [length]. lia.
  - destruct s as [|x s]; [discriminate|]. destruct (p x); [|discriminate].
    apply Hk in H. cbn [length]. lia.
  - destruct (at_bol prev); [|discriminate]. apply Hk in H. lia.
  - destruct (at_eol s); [|discriminate]. apply Hk in H. lia.
  - apply (IH1 _ _ (IH2 _ _ Hk)) in H. lia.
  - destruct (exec r1 prev s k) as [r|] eqn:E; cbn [or_else] in H.
    + injection H as ->. apply (IH1 _ _ Hk) in E. lia.
    + apply (IH2 _ _ Hk) in H. lia.
  - destruct (exec r1 prev s k) as [r|] eqn:E; cbn [or_else] in H.
    + injection H as ->. apply (IH1 _ _ Hk) in E. lia.
    + apply Hk in H. lia.
  - apply (greedy_leaves p d k Hk) in H. lia.
  - destruct s as [|x s]; [discriminate|]. destruct (p x); [|discriminate].
    apply (greedy_leaves p d k Hk) in H. cbn [length]. lia.
  - apply (lazy_leaves p d k Hk) in H. lia.
Qed.

(** A match is at least as long as the least width of its pattern. *)
Lemma match_len_min_width r prev s n :
  match_len r prev s = Some n → (min_width r ≤ n)%nat.
Proof.
  unfold match_len. destruct (exec r prev s _) as [rest|] eqn:E; [|discriminate].
  intros [= <-]. apply (exec_leaves r 0) in E; [cbn [plus] in E; lia|].
  intros prev' s' rest' [= ->]. lia.
Qed.

(** No pattern of the script matches the empty string. *)
Lemma script_patterns_consume :
  Forall (fun r => ∀ prev s, match_len r prev s ≠ Some O)
    [re_comment; re_inline_math; re_display_math; re_ref_command; re_command;
     re_not_letter_or_space; re_spaces].
Proof.
  repeat constructor; intros prev s H;
    apply match_len_min_width in H; vm_compute in H; lia.
Qed.

(** ** The two patterns of [_clean_text] *)

Lemma drop_while_length {A} (p : A → bool) (l : list A) :
  (length (drop_while p l) ≤ length l)%nat.
Proof.
  induction l as [|x l IH]; simpl; [lia|].
  destruct (p x); simpl; lia.
Qed.

Lemma span_len_drop_while p s :
  (length s - length (drop_while p s))%nat = span_len p s.
Proof.
  induction s as [|c s IH]; simpl; [reflexivity|].
  destruct (p c); simpl.
  - pose proof (drop_while_length p s). rewrite <- IH. lia.
  - lia.
Qed.

Lemma greedy_id p prev s : greedy p id_cont prev s = Some (drop_while p s).
Proof.
  revert prev. induction s as [|c s IH]; intros prev; simpl; [reflexivity|].
  destruct (p c); [|reflexivity]. rewrite IH. reflexivity.
Qed.

Lemma match_len_cls p prev c s :
  match_len (Cls p) prev (c :: s) = if p c then Some 1%nat else None.
Proof.
  unfold match_len. cbn [exec]. destruct (p c); [|reflexivity].
  f_equal. cbn [length]. lia.
Qed.

(** Replacing single characters of a set is a [flat_map]. *)
Lemma sub_scan_cls p repl prev s :
  sub_scan (Cls p) repl O prev s
  = flat_map (fun c => if p c then repl else [c]) s.
Proof.
  revert prev. induction s as [|c s IH]; intros prev; [reflexivity|].
  cbn [sub_scan flat_map]. rewrite match_len_cls.
  destruct (p c).
  - rewrite IH. reflexivity.
  - rewrite IH. reflexivity.
Qed.

Lemma match_len_spaces prev c s :
  match_len re_spaces prev (c :: s)
  = if is_space c then Some (S (span_len is_space s)) else None.
Proof.
  unfold match_len, re_spaces. simpl. destruct (is_space c); [|reflexivity].
  fold id_cont. rewrite greedy_id. f_equal.
  pose proof (drop_while_length is_space s).
  rewrite <- span_len_drop_while. lia.
Qed.

Lemma sub_scan_spaces s :
  ∀ prev,
    sub_scan re_spaces [SP] O prev s = squeeze false s
    ∧ sub_scan re_spaces [SP] (span_len is_space s) prev s = squeeze true s.
Proof.
  induction s as [|c s IH]; intros prev.
  - split; reflexivity.
  - assert (H0 : sub_scan re_spaces [SP] O prev (c :: s) = squeeze false (c :: s)).
    { cbn [sub_scan]. rewrite match_len_spaces. simpl.
      destruct (is_space c).
      - simpl. f_equal. apply IH.
      - f_equal. apply IH. }
    split; [exact H0|].
    cbn [span_len]. destruct (is_space c) eqn:E.
    + cbn [sub_scan]. simpl. rewrite E. apply IH.
    + rewrite H0. simpl. rewrite E. reflexivity.
Qed.

Lemma re_sub_spaces s : re_sub re_spaces [SP] s = squeeze false s.
Proof. apply sub_scan_spaces. Qed.

Lemma re_sub_not_letter_or_space s :
  re_sub re_not_letter_or_space [SP] s
  = map (fun c => if is_letter c || is_space c then c else SP) s.
Proof.
  unfold re_sub, re_not_letter_or_space. rewrite sub_scan_cls.
  induction s as [|c s IH]; simpl; [reflexivity|].
  rewrite IH. destruct (is_letter c || is_space c); reflexivity.
Qed.

(** ** Words of a text *)

Lemma words_Forall (P : char → Prop) s :
  Forall P s → Forall (fun w => w ≠ [] ∧ no_space w ∧ Forall P w) (words s).
Proof.
  induction s as [|c s IH]; intros H; [constructor|].
  inversion H as [|? ? Hc Hs]; subst. specialize (IH Hs).
  cbn [words]. destruct (is_space c) eqn:Ec; [exact IH|].
  destruct s as [|d s].
  - repeat constructor; [discriminate|assumption..].
  - destruct (is_space d) eqn:Ed.
    + constructor; [|exact IH].
      repeat constructor; [discriminate|assumption..].
    + destruct (words (d :: s)) as [|w ws].
      * repeat constructor; [discriminate|assumption..].
      * inversion IH as [|? ? (Hne & Hsp & Hw) Hws]; subst.
        constructor; [|exact Hws].
        split; [discriminate|]. split; constructor; assumption.
Qed.

Lemma join_cons sep w ws :
  join sep (w :: ws)
  = match ws with [] => w | _ :: _ => w ++ sep :: join sep ws end.
Proof. destruct ws; reflexivity. Qed.

Lemma join_nil_inv sep ws :
  Forall (fun w => w ≠ []) ws → join sep ws = [] → ws = [].
Proof.
  intros H. destruct ws as [|w ws]; [reflexivity|].
  inversion H as [|? ? Hw _]; subst. rewrite join_cons.
  destruct ws; destruct w; try congruence; discriminate.
Qed.

Lemma Forall_join (P : char → Prop) sep ws :
  P sep → Forall (Forall P) ws → Forall P (join sep ws).
Proof.
  intros Hsep. induction 1 as [|w ws Hw Hws IH]; [constructor|].
  rewrite join_cons. destruct ws; [assumption|].
  apply Forall_app. split; [assumption|]. constructor; assumption.
Qed.

Lemma map_join (f : char → char) sep ws :
  map f (join sep ws) = join (f sep) (map (map f) ws).
Proof.
  induction ws as [|w ws IH]; [reflexivity|].
  rewrite map_cons, !join_cons. destruct ws as [|w' ws]; [reflexivity|].
  rewrite map_app, map_cons, IH. reflexivity.
Qed.

(** ** [strip] after [squeeze] *)

Lemma drop_while_snoc {A} (p : A → bool) l x :
  drop_while p (l ++ [x])
  = match drop_while p l with
    | [] => if p x then [] else [x]
    | r => r ++ [x]
    end.
Proof.
  induction l as [|y l IH]; simpl; [reflexivity|].
  destruct (p y); [exact IH|reflexivity].
Qed.

Lemma rstrip_cons c s :
  rstrip (c :: s)
  = match rstrip s with
    | [] => if is_space c then [] else [c]
    | r => c :: r
    end.
Proof.
  unfold rstrip. cbn [rev]. rewrite drop_while_snoc.
  destruct (drop_while is_space (rev s)) as [|x r].
  - simpl. destruct (is_space c); reflexivity.
  - rewrite rev_app_distr. cbn [rev app].
    destruct (rev r ++ [x]) eqn:E; [|reflexivity].
    destruct (rev r); discriminate.
Qed.

Lemma rstrip_cons_word c s :
  is_space c = false → rstrip (c :: s) = c :: rstrip s.
Proof.
  intros E. rewrite rstrip_cons, E. destruct (rstrip s); reflexivity.
Qed.

Lemma lstrip_squeeze b s : lstrip (squeeze b s) = squeeze true s.
Proof.
  revert b. induction s as [|c s IH]; intros b; [reflexivity|].
  cbn [squeeze]. destruct (is_space c) eqn:E.
  - destruct b; [apply IH|]. unfold lstrip. cbn [drop_while].
    rewrite space_is_space. apply IH.
  - unfold lstrip. cbn [drop_while]. rewrite E. reflexivity.
Qed.

Lemma rstrip_squeeze s : rstrip (squeeze true s) = join SP (words s).
Proof.
  induction s as [|c s IH]; [reflexivity|].
  cbn [squeeze words]. destruct (is_space c) eqn:Ec; [exact IH|].
  rewrite rstrip_cons_word by assumption.
  destruct s as [|d s]; [reflexivity|].
  pose proof (words_Forall (fun _ => True) (d :: s)) as Hw.
  revert IH. cbn [squeeze]. destruct (is_space d) eqn:Ed; intros IH.
  - rewrite rstrip_cons, space_is_space, IH, join_cons.
    destruct (words (d :: s)) as [|w ws] eqn:E; [reflexivity|].
    destruct (join SP (w :: ws)) eqn:Ej; [|reflexivity].
    apply join_nil_inv in Ej; [discriminate|].
    eapply Forall_impl; [apply Hw, Forall_forall; trivial|].
    intros ? H; apply H.
  - rewrite IH. destruct (words (d :: s)) as [|w ws]; [reflexivity|].
    rewrite !join_cons. destruct ws; reflexivity.
Qed.

Lemma strip_squeeze s : strip (squeeze false s) = join SP (words s).
Proof. unfold strip. rewrite lstrip_squeeze. apply rstrip_squeeze. Qed.

(** ** Splitting and joining *)

Lemma split_word sep w : sep ∉ w → split sep w = [w].
Proof.
  induction w as [|c w IH]; intros H; [reflexivity|].
  apply not_elem_of_cons in H as [Hc Hw]. cbn [split].
  rewrite eqb_out by congruence. rewrite IH by assumption. reflexivity.
Qed.

Lemma split_app sep w s : sep ∉ w → split sep (w ++ sep :: s) = w :: split sep s.
Proof.
  induction w as [|c w IH]; intros H.
  - cbn [app split]. rewrite N.eqb_refl. reflexivity.
  - apply not_elem_of_cons in H as [Hc Hw]. cbn [app split].
    rewrite eqb_out by congruence. rewrite IH by assumption. reflexivity.
Qed.

Lemma split_join sep ws :
  ws ≠ [] → Forall (fun w => sep ∉ w) ws → split sep (join sep ws) = ws.
Proof.
  intros Hne H. induction H as [|w ws Hw Hws IH]; [congruence|].
  rewrite join_cons. destruct ws as [|w' ws].
  - apply split_word. assumption.
  - rewrite split_app by assumption. f_equal. apply IH. discriminate.
Qed.

Lemma words_word w : w ≠ [] → no_space w → words w = [w].
Proof.
  induction w as [|c w IH]; intros Hne H; [congruence|].
  inversion H as [|? ? Hc Hw]; subst. cbn [words]. rewrite Hc.
  destruct w as [|d w]; [reflexivity|].
  inversion Hw as [|? ? Hd _]; subst. rewrite Hd.
  rewrite IH by (assumption || discriminate). reflexivity.
Qed.

Lemma words_app w s :
  w ≠ [] → no_space w → words (w ++ SP :: s) = w :: words s.
Proof.
  induction w as [|c w IH]; intros Hne H; [congruence|].
  inversion H as [|? ? Hc Hw]; subst. cbn [app words]. rewrite Hc.
  destruct w as [|d w].
  - cbn [app]. rewrite space_is_space. reflexivity.
  - inversion Hw as [|? ? Hd _]; subst. cbn [app] in *. rewrite Hd.
    rewrite IH by (assumption || discriminate). reflexivity.
Qed.

Lemma words_join ws :
  Forall (fun w => w ≠ [] ∧ no_space w) ws → words (join SP ws) = ws.
Proof.
  induction 1 as [|w ws [Hne Hw] Hws IH]; [reflexivity|].
  rewrite join_cons. destruct ws as [|w' ws].
  - apply words_word; assumption.
  - rewrite words_app by assumption. f_equal. exact IH.
Qed.

(** ** The cleaner *)

Lemma keep_Forall text :
  Forall (fun c => is_letter c = true ∨ is_space c = true) (keep text).
Proof.
  unfold keep. apply Forall_forall. intros c Hc.
  apply list_elem_of_fmap in Hc as (x & -> & _).
  destruct (is_letter x) eqn:El; [left; assumption|].
  destruct (is_space x) eqn:Es; simpl; [right; assumption|].
  right. reflexivity.
Qed.

Lemma word_ok_no_space w : word_ok w → w ≠ [] ∧ no_space w.
Proof.
  intros [Hne H]. split; [assumption|].
  eapply Forall_impl; [exact H|].
  intros c Hc. simpl. apply letter_not_space, lower_is_letter, Hc.
Qed.

Lemma word_ok_no_sep w : word_ok w → SP ∉ w.
Proof.
  intros [_ H] Hin. rewrite Forall_forall in H. apply H in Hin.
  discriminate.
Qed.

Lemma keep_words_letters text :
  Forall (fun w => w ≠ [] ∧ Forall (fun c => is_letter c = true) w)
         (words (keep text)).
Proof.
  eapply Forall_impl; [apply words_Forall, keep_Forall|].
  intros w (Hne & Hsp & Hw). split; [assumption|].
  apply Forall_forall. intros c Hc.
  rewrite Forall_forall in Hw. unfold no_space in Hsp.
  rewrite Forall_forall in Hsp.
  destruct (Hw c Hc) as [H|H]; [assumption|].
  rewrite (Hsp c Hc) in H. discriminate.
Qed.

Lemma lowered_words_ok text :
  Forall word_ok (map (map ascii_lower) (words (keep text))).
Proof.
  apply Forall_fmap. eapply Forall_impl; [apply keep_words_letters|].
  intros w [Hne Hw]. split.
  - destruct w; [congruence|discriminate].
  - apply Forall_fmap. eapply Forall_impl; [exact Hw|].
    intros c Hc. apply ascii_lower_letter, Hc.
Qed.

Lemma filter_Forall {A} (f : A → bool) (P : A → Prop) l :
  Forall P l → Forall (fun x => P x ∧ f x = true) (List.filter f l).
Proof.
  induction 1 as [|x l Hx Hl IH]; simpl; [constructor|].
  destruct (f x) eqn:E; [constructor; auto|assumption].
Qed.

Lemma filter_filter {A} (f : A → bool) l :
  List.filter f (List.filter f l) = List.filter f l.
Proof.
  induction l as [|x l IH]; simpl; [reflexivity|].
  destruct (f x) eqn:E; simpl; rewrite ?E, IH; reflexivity.
Qed.

Section CleanText.

Variable unicode_lower : str → str.

Lemma normalize_words text :
  normalize unicode_lower text
  = join SP (map (map ascii_lower) (words (keep text))).
Proof.
  unfold normalize.
  rewrite re_sub_not_letter_or_space, re_sub_spaces, strip_squeeze.
  fold (keep text). unfold lower.
  rewrite (proj2 (forallb_forall _ _)).
  - rewrite map_join, ascii_lower_space. reflexivity.
  - intros c Hc. apply list_elem_of_In in Hc. revert c Hc.
    apply Forall_forall, Forall_join; [reflexivity|].
    eapply Forall_impl; [apply keep_words_letters|].
    intros w [_ Hw]. eapply Forall_impl; [exact Hw|].
    intros c Hc. apply letter_is_ascii, Hc.
Qed.

Lemma normalize_join ws :
  Forall word_ok ws → normalize unicode_lower (join SP ws) = join SP ws.
Proof.
  intros H. rewrite normalize_words.
  assert (Hk : keep (join SP ws) = join SP ws).
  { unfold keep. rewrite <- (map_id (join SP ws)) at 2.
    apply map_ext_Forall, Forall_join.
    - reflexivity.
    - eapply Forall_impl; [exact H|]. intros w [_ Hw].
      eapply Forall_impl; [exact Hw|]. intros c Hc. simpl.
      rewrite (lower_is_letter c Hc). reflexivity. }
  rewrite Hk, words_join.
  - f_equal. rewrite <- (map_id ws) at 2. apply map_ext_Forall.
    eapply Forall_impl; [exact H|]. intros w [_ Hw].
    rewrite <- (map_id w) at 2. apply map_ext_Forall.
    eapply Forall_impl; [exact Hw|]. intros c Hc.
    apply ascii_lower_lower, Hc.
  - eapply Forall_impl; [exact H|]. apply word_ok_no_space.
Qed.

(** The words of the normalized text: [split] gives them back, except
    that an empty text splits into one empty piece. *)
Lemma clean_text_words text min_len :
  ∃ ws, Forall word_ok ws
        ∧ _clean_text unicode_lower text min_len
          = match ws with
            | [] => if len_ge min_len [] then [[]] else []
            | _ :: _ => List.filter (len_ge min_len) ws
            end.
Proof.
  exists (map (map ascii_lower) (words (keep text))).
  split; [apply lowered_words_ok|].
  unfold _clean_text. rewrite normalize_words.
  pose proof (lowered_words_ok text) as H.
  destruct (map (map ascii_lower) (words (keep text))) as [|w ws] eqn:E.
  - reflexivity.
  - rewrite split_join; [reflexivity|discriminate|].
    eapply Forall_impl; [exact H|]. apply word_ok_no_sep.
Qed.

End CleanText.

Section CleanTextClaims.

Variable unicode_lower : str → str.

Lemma clean_text_join ws min_len :
  Forall word_ok ws →
  _clean_text unicode_lower (join SP ws) min_len
  = match ws with
    | [] => if len_ge min_len [] then [[]] else []
    | _ :: _ => List.filter (len_ge min_len) ws
    end.
Proof.
  intros H. unfold _clean_text. rewrite normalize_join by assumption.
  destruct ws as [|w ws]; [reflexivity|].
  rewrite split_join; [reflexivity|discriminate|].
  eapply Forall_impl; [exact H|]. apply word_ok_no_sep.
Qed.

Lemma len_ge_nil_false min_len w :
  len_ge min_len w = false → len_ge min_len [] = false.
Proof.
  unfold len_ge. rewrite !Z.leb_gt. simpl. lia.
Qed.

(** C3: cleaning the words of a text joined by single spaces gives the
    same words again, for every text and every minimum length. *)
Theorem clean_text_idempotent (text : str) (min_len : Z) :
  _clean_text unicode_lower
    (join SP (_clean_text unicode_lower text min_len)) min_len
  = _clean_text unicode_lower text min_len.
Proof.
  destruct (clean_text_words unicode_lower text min_len) as (ws & Hws & ->).
  destruct ws as [|w ws].
  - destruct (len_ge min_len []) eqn:E.
    + change (join SP [[]]) with (join SP []).
      rewrite clean_text_join by constructor. rewrite E. reflexivity.
    + rewrite clean_text_join by constructor. rewrite E. reflexivity.
  - assert (Hf : Forall word_ok (List.filter (len_ge min_len) (w :: ws))).
    { eapply Forall_impl; [apply filter_Forall, Hws|]. intros ? H; apply H. }
    rewrite clean_text_join by assumption.
    destruct (List.filter (len_ge min_len) (w :: ws)) as [|w' ws'] eqn:E.
    + simpl in E. destruct (len_ge min_len w) eqn:Ew; [discriminate|].
      rewrite (len_ge_nil_false _ _ Ew). reflexivity.
    + rewrite <- E. apply filter_filter.
Qed.

(** C5, amended: for a minimum length of at least 1, every token of the
    cleaner is made of one or more lowercase ASCII letters and is at
    least [min_len] long. *)
Theorem clean_text_tokens (text : str) (min_len : Z) :
  (1 ≤ min_len)%Z →
  Forall (token_ok min_len) (_clean_text unicode_lower text min_len).
Proof.
  intros Hm.
  destruct (clean_text_words unicode_lower text min_len) as (ws & Hws & ->).
  destruct ws as [|w ws].
  - replace (len_ge min_len []) with false; [constructor|].
    symmetry. apply Z.leb_gt. simpl. lia.
  - eapply Forall_impl; [apply filter_Forall, Hws|].
    intros x [Hx Hl]. split; [assumption|]. apply Z.leb_le, Hl.
Qed.

End CleanTextClaims.

Lemma clean_text_tokens_witness :
  (1 ≤ 3)%Z
  ∧ Forall (token_ok 3)
      (_clean_text no_case_tables (lit "The  Quantum-Dot model, of 2 qubits") 3).
Proof.
  split; [lia|]. apply (clean_text_tokens no_case_tables); lia.
Defined.

(** C5 as stated fails for a minimum length of 0: the empty text yields
    one token, the empty string. *)
Lemma clean_text_empty_token :
  _clean_text no_case_tables [] 0 = [[]]
  ∧ ¬ Forall (token_ok 0) (_clean_text no_case_tables [] 0).
Proof.
  split; [reflexivity|].
  intros H. inversion H as [|? ? [[Hne _] _] _]; subst. congruence.
Qed.

(** ** The example of the specification *)

(** C1, amended: on the example, extraction removes the citation and the
    math, and keeps the comment, which does not start its line; the tokens
    of length 3 or more are hello, world, comment, more, text. *)
Theorem example_extraction :
  _strip_latex example_input
  = lit "  Hello World % a comment" ++ [LF] ++ lit "  more text"
  ∧ ∀ unicode_lower,
      _clean_text unicode_lower (_strip_latex example_input) 3
      = [lit "hello"; lit "world"; lit "comment"; lit "more"; lit "text"].
Proof.
  split; [vm_compute; reflexivity|].
  intros unicode_lower. vm_compute. reflexivity.
Qed.

(** C1 as stated fails: the tokens of the example are not hello, world,
    more, text, whatever the case tables. *)
Lemma example_keeps_comment :
  ¬ ∃ unicode_lower,
      _clean_text unicode_lower (_strip_latex example_input) 3
      = [lit "hello"; lit "world"; lit "more"; lit "text"].
Proof.
  intros [unicode_lower H]. vm_compute in H. discriminate H.
Qed.

(** ** The comment pattern *)

Lemma greedy_dot_eol prev s :
  greedy dot (fun prev' s' => exec Eol prev' s' id_cont) prev s
  = Some (drop_while dot s).
Proof.
  revert prev. induction s as [|c s IH]; intros prev; [reflexivity|].
  cbn [greedy drop_while]. destruct (dot c) eqn:E.
  - rewrite IH. reflexivity.
  - cbn [exec at_eol]. unfold dot in E. apply negb_false_iff in E.
    rewrite E. reflexivity.
Qed.

Lemma match_len_comment prev c s :
  match_len re_comment prev (c :: s)
  = if at_bol prev && (c =? PERCENT) then Some (S (span_len dot s)) else None.
Proof.
  unfold match_len, re_comment. cbn [exec].
  destruct (at_bol prev); [|reflexivity].
  destruct (c =? PERCENT); [|reflexivity]. cbn [andb].
  fold id_cont. rewrite greedy_dot_eol. f_equal.
  pose proof (drop_while_length dot s).
  rewrite <- span_len_drop_while. cbn [length]. lia.
Qed.

Lemma sub_scan_comment s :
  ∀ prev,
    sub_scan re_comment [SP] O prev s = scan_comments (mode_at prev) s
    ∧ sub_scan re_comment [SP] (span_len dot s) prev s
      = scan_comments InComment s.
Proof.
  induction s as [|c s IH]; intros prev.
  - assert (H0 : sub_scan re_comment [SP] O prev [] = []).
    { cbn [sub_scan]. unfold match_len, re_comment. cbn [exec].
      destruct (at_bol prev); reflexivity. }
    split; exact H0.
  - assert (H0 : sub_scan re_comment [SP] O prev (c :: s)
                 = scan_comments (mode_at prev) (c :: s)).
    { cbn [sub_scan]. rewrite match_len_comment. unfold mode_at.
      destruct (at_bol prev); cbn [andb scan_comments].
      - destruct (c =? PERCENT).
        + cbn [app]. f_equal. apply IH.
        + f_equal. apply (IH (Some c)).
      - f_equal. apply (IH (Some c)). }
    split; [exact H0|].
    cbn [span_len scan_comments]. unfold dot at 1.
    destruct (c =? LF) eqn:E; cbn [negb].
    + rewrite H0. apply N.eqb_eq in E. subst c.
      unfold mode_at. destruct (at_bol prev); reflexivity.
    + cbn [sub_scan]. apply IH.
Qed.

Lemma split_cons_inv sep s : ∃ l ls, split sep s = l :: ls.
Proof.
  destruct s as [|c s]; [eexists _, _; reflexivity|].
  cbn [split]. destruct (c =? sep); [eexists _, _; reflexivity|].
  destruct (split sep s); eexists _, _; reflexivity.
Qed.

Lemma scan_comments_lines s :
  ∀ l ls, split LF s = l :: ls →
    scan_comments AtLineStart s = join LF (blank_comment l :: map blank_comment ls)
    ∧ scan_comments InLine s = join LF (l :: map blank_comment ls)
    ∧ scan_comments InComment s = join LF ([] :: map blank_comment ls).
Proof.
  induction s as [|c s IH]; intros l ls E.
  - inversion E; subst. repeat split.
  - cbn [split] in E. destruct (split_cons_inv LF s) as (l' & ls' & E').
    rewrite E' in E. specialize (IH l' ls' E') as (IH1 & IH2 & IH3).
    cbn [scan_comments]. unfold after. destruct (c =? LF) eqn:Ec.
    + apply N.eqb_eq in Ec. subst c. inversion E; subst.
      change (LF =? PERCENT) with false. cbn [blank_comment map].
      rewrite IH1. repeat split.
    + inversion E; subst. cbn [blank_comment].
      destruct (c =? PERCENT) eqn:Ep.
      * rewrite IH2, IH3. rewrite !join_cons.
        destruct (map blank_comment ls); repeat split.
      * rewrite IH2, IH3. rewrite !join_cons.
        destruct (map blank_comment ls); repeat split.
Qed.

(** C2, amended: the comment step replaces by one space every line whose
    first character is a percent sign and leaves every other line as it
    is, also a line whose percent sign comes after white space. *)
Theorem drop_comments_lines (text : str) :
  drop_comments text = join LF (map blank_comment (split LF text)).
Proof.
  unfold drop_comments, re_sub.
  destruct (split_cons_inv LF text) as (l & ls & E).
  rewrite (proj1 (sub_scan_comment text None)), E.
  apply (scan_comments_lines text l ls E).
Qed.

(** C2 as stated fails: a comment line that starts with white space is
    kept, by the comment step and by the whole extraction. *)
Lemma indented_comment_kept :
  is_comment_line (lit "  % note") = true
  ∧ drop_comments (lit "  % note") = lit "  % note"
  ∧ _strip_latex (lit "  % note") = lit "  % note".
Proof. repeat split. Qed.

(** ** Counting *)

Lemma get_incr w m v :
  get (incr w m) v 0 = if decide (w = v) then S (get m v 0) else get m v 0.
Proof.
  induction m as [|[k n] m IH]; cbn [incr get].
  - destruct (decide (w = v)); reflexivity.
  - destruct (decide (k = w)) as [->|Hk]; cbn [get].
    + destruct (decide (w = v)); reflexivity.
    + destruct (decide (k = v)) as [->|Hv]; [|exact IH].
      destruct (decide (w = v)); [congruence|reflexivity].
Qed.

Lemma keys_incr w m v : v ∈ map fst (incr w m) ↔ v = w ∨ v ∈ map fst m.
Proof.
  induction m as [|[k n] m IH]; cbn [incr map fst].
  - rewrite list_elem_of_singleton, elem_of_nil. tauto.
  - destruct (decide (k = w)) as [->|Hk]; cbn [map fst].
    + rewrite !elem_of_cons. tauto.
    + rewrite !elem_of_cons, IH. tauto.
Qed.

Lemma get_fold l : ∀ m v,
  get (fold_left (fun m w => incr w m) l m) v 0 = (get m v 0 + occ v l)%nat.
Proof.
  induction l as [|x l IH]; intros m v; cbn [fold_left occ]; [lia|].
  rewrite IH, get_incr. destruct (decide (x = v)); lia.
Qed.

Lemma keys_fold l : ∀ m v,
  v ∈ map fst (fold_left (fun m w => incr w m) l m) ↔ v ∈ l ∨ v ∈ map fst m.
Proof.
  induction l as [|x l IH]; intros m v; cbn [fold_left].
  - rewrite elem_of_nil. tauto.
  - rewrite IH, keys_incr, elem_of_cons. tauto.
Qed.

(** A counter gives each word its number of occurrences. *)
Lemma get_Counter l w : get (Counter l) w 0 = occ w l.
Proof. unfold Counter. rewrite get_fold. reflexivity. Qed.

(** The keys of a counter are the words that occur. *)
Lemma has_key_Counter l w : has_key (Counter l) w ↔ w ∈ l.
Proof.
  unfold has_key, Counter. rewrite keys_fold. cbn [map].
  rewrite elem_of_nil. tauto.
Qed.

Lemma occ_pos w l : w ∈ l → (0 < occ w l)%nat.
Proof.
  induction l as [|x l IH]; intros H; [inversion H|].
  cbn [occ]. destruct (decide (x = w)); [lia|].
  apply IH. apply elem_of_cons in H as [->|H]; [congruence|exact H].
Qed.

Lemma occ_remove_stopwords (stops : gset str) w l :
  occ w (remove_stopwords stops l) = if decide (w ∈ stops) then O else occ w l.
Proof.
  unfold remove_stopwords. induction l as [|x l IH]; cbn [occ].
  - destruct (decide (w ∈ stops)); reflexivity.
  - rewrite filter_cons. destruct (decide (x ∉ stops)) as [Hx|Hx]; cbn [occ].
    + rewrite IH. destruct (decide (x = w)) as [->|]; [|reflexivity].
      destruct (decide (w ∈ stops)); [contradiction|reflexivity].
    + rewrite IH. destruct (decide (x = w)) as [->|]; [|reflexivity].
      destruct (decide (w ∈ stops)); [reflexivity|contradiction].
Qed.

(** C4: for a word of the raw table, the raw count is at least the
    filtered count, and the two are equal exactly when the word is not a
    stopword. *)
Theorem raw_count_ge_filtered (all_words : list str) (stops : gset str)
  (w : str) :
  has_key (Counter all_words) w →
  let raw := get (Counter all_words) w 0 in
  let filtered := get (Counter (remove_stopwords stops all_words)) w 0 in
  (filtered ≤ raw)%nat ∧ (raw = filtered ↔ w ∉ stops).
Proof.
  intros H. cbn zeta. rewrite !get_Counter, occ_remove_stopwords.
  apply (proj1 (has_key_Counter all_words w)), occ_pos in H.
  destruct (decide (w ∈ stops)) as [Hin|Hout].
  - split; [lia|]. split; [intros E; exfalso; lia|contradiction].
  - split; [lia|]. split; [intros _; exact Hout|reflexivity].
Qed.

Lemma raw_count_ge_filtered_witness :
  has_key (Counter [lit "the"; lit "quantum"; lit "the"]) (lit "the")
  ∧ let all := [lit "the"; lit "quantum"; lit "the"] in
    let stops : gset str := {[ lit "the" ]} in
    let raw := get (Counter all) (lit "the") 0 in
    let filtered := get (Counter (remove_stopwords stops all)) (lit "the") 0 in
    (filtered ≤ raw)%nat ∧ (raw = filtered ↔ lit "the" ∉ stops).
Proof.
  assert (H : has_key (Counter [lit "the"; lit "quantum"; lit "the"]) (lit "the")).
  { vm_compute. left. }
  split; [exact H|].
  exact (raw_count_ge_filtered _ {[ lit "the" ]} _ H).
Defined.

(** ** Sorting *)

Section SortingFacts.

Context {A : Type} (lt : A → A → bool).

Lemma insert_sorted_Permutation x l : insert_sorted lt x l ≡ₚ x :: l.
Proof.
  induction l as [|y l IH]; cbn [insert_sorted]; [reflexivity|].
  destruct (lt y x); [|reflexivity].
  rewrite IH. apply Permutation_swap.
Qed.

Lemma sorted_Permutation l : sorted lt l ≡ₚ l.
Proof.
  induction l as [|x l IH]; [reflexivity|].
  cbn [sorted fold_right]. rewrite insert_sorted_Permutation.
  constructor. exact IH.
Qed.

Hypothesis lt_asym : ∀ a b, lt a b = true → lt b a = false.

Lemma insert_sorted_HdRel y x l :
  not_above lt y x → HdRel (not_above lt) y l →
  HdRel (not_above lt) y (insert_sorted lt x l).
Proof.
  intros Hyx H. destruct l as [|z l]; cbn [insert_sorted].
  - constructor. exact Hyx.
  - destruct (lt z x); constructor; [|exact Hyx].
    inversion H; assumption.
Qed.

Lemma insert_sorted_Sorted x l :
  Sorted (not_above lt) l → Sorted (not_above lt) (insert_sorted lt x l).
Proof.
  induction 1 as [|y l Hl IH Hy]; cbn [insert_sorted].
  - repeat constructor.
  - destruct (lt y x) eqn:E.
    + constructor; [exact IH|].
      apply insert_sorted_HdRel; [|exact Hy]. apply lt_asym, E.
    + constructor; [constructor; assumption|]. constructor. exact E.
Qed.

Lemma sorted_Sorted l : Sorted (not_above lt) (sorted lt l).
Proof.
  induction l as [|x l IH]; [constructor|].
  cbn [sorted fold_right]. apply insert_sorted_Sorted, IH.
Qed.


End SortingFacts.




(** ** Events of a computation *)

Lemma bind_unfold {A B} (m : M A) (f : A → M B) : m ≫= f = bind m f.
Proof. reflexivity. Qed.

Lemma bind_events {A B} (P : event → Prop) (m : M A) (f : A → M B) :
  Forall P m.1 → (∀ a, Forall P (f a).1) → Forall P (m ≫= f).1.
Proof.
  intros Hm Hf. rewrite bind_unfold. unfold bind.
  destruct m as [t [a|st]]; [|exact Hm].
  specialize (Hf a). destruct (f a) as [t' o]. cbn [fst] in *.
  apply Forall_app. split; assumption.
Qed.

Lemma for_each_events {A B} (P : event → Prop) (f : A → M B) l :
  (∀ x, Forall P (f x).1) → Forall P (for_each f l).1.
Proof.
  intros Hf. induction l as [|x l IH]; cbn [for_each]; [constructor|].
  apply bind_events; [apply Hf|]. intros y.
  apply bind_events; [exact IH|]. intros ys. constructor.
Qed.

Lemma for_each_ext {A B} (f g : A → M B) l :
  Forall (fun x => f x = g x) l → for_each f l = for_each g l.
Proof.
  induction 1 as [|x l Hx Hl IH]; cbn [for_each]; [reflexivity|].
  rewrite Hx, IH. reflexivity.
Qed.

Lemma read_text_events (P : event → Prop) e p :
  P (ReadText p) → Forall P (read_text e p).1.
Proof.
  intros H. unfold read_text. apply bind_events.
  - repeat constructor. exact H.
  - intros _. destruct (fs e p) as [[text|names]|]; constructor.
Qed.

Lemma tex_words_events (P : event → Prop) e args p :
  P (ReadText p) → Forall P (tex_words e args p).1.
Proof.
  intros H. unfold tex_words. apply bind_events.
  - apply read_text_events, H.
  - intros text. constructor.
Qed.

Lemma pdf_words_events (P : event → Prop) e args extract p :
  P (ExtractText p) → Forall P (pdf_words e args extract p).1.
Proof.
  intros H. unfold pdf_words. apply bind_events.
  - repeat constructor. exact H.
  - intros _. destruct (extract p); constructor.
Qed.

Lemma for_each_events_in {A B} (P : event → Prop) (f : A → M B) l :
  Forall (fun x => Forall P (f x).1) l → Forall P (for_each f l).1.
Proof.
  induction 1 as [|x l Hx Hl IH]; cbn [for_each]; [constructor|].
  apply bind_events; [exact Hx|]. intros y.
  apply bind_events; [exact IH|]. intros ys. constructor.
Qed.

(** ** The input files *)



Lemma truthy_true {A} (l : list A) : l ≠ [] → truthy l = true.
Proof. destruct l; [congruence|reflexivity]. Qed.

Lemma all_words_tex e args :
  tex_files e args ≠ [] →
  all_words e args
  = (ws ← for_each (tex_words e args) (tex_files e args); mret (concat ws)).
Proof.
  intros H. unfold all_words. rewrite (truthy_true _ H). reflexivity.
Qed.



(** ** Failures before any output *)

Lemma not_writes_png_prints (ms : list message) st :
  ¬ writes_png (map Print ms, st).
Proof.
  intros (p & image & H). unfold events in H. cbn [fst] in H.
  apply list_elem_of_fmap in H as (m & Hm & _). discriminate.
Qed.

Lemma load_stopwords_not_found e args builtin :
  truthy (stopwords args) = true →
  exists_ e (Path e (stopwords args)) = false →
  load_stopwords e args builtin
  = ([Print (StopwordsNotFound (Path e (stopwords args)))], Stop (Return 1)).
Proof.
  intros Ht Hex. unfold load_stopwords, stop_path. rewrite Ht, Hex.
  reflexivity.
Qed.

Lemma load_stopwords_fallback_absent e args builtin :
  stopwords args = [] →
  exists_ e (child (child (script_dir e) (lit "..")) (lit "stopwords.txt")) = false →
  load_stopwords e args builtin
  = ([], Value (builtin ∪ ∅ ∪ extra_stopword_set e args)).
Proof.
  intros Ht Hex. unfold load_stopwords, stop_path. rewrite Ht.
  cbn [truthy]. rewrite Hex. reflexivity.
Qed.

Lemma main_events (P : event → Prop) e args :
  Forall P (main_body e args).1 → Forall P (main e args).1.
Proof.
  unfold main, finish. destruct (main_body e args) as [t [code|st]]; trivial.
Qed.

Lemma all_words_events (P : event → Prop) e args :
  (∀ p, P (ReadText p)) → (∀ p, P (ExtractText p)) →
  P (Print MissingPdfminer) →
  Forall P (all_words e args).1.
Proof.
  intros Hr Hx Hm. unfold all_words. destruct (truthy (tex_files e args)).
  - apply bind_events; [|intros ws; constructor].
    apply for_each_events. intros p. apply tex_words_events, Hr.
  - destruct (import_pdfminer e) as [extract_text|].
    + apply bind_events; [|intros ws; constructor].
      apply for_each_events. intros p. apply pdf_words_events, Hx.
    + repeat constructor. exact Hm.
Qed.

Lemma print_lines_events (P : event → Prop) ok lines :
  Forall (fun m => P (Print m)) lines →
  ∀ printed, Forall P (print_lines ok printed lines).1.
Proof.
  induction 1 as [|m lines Hm Hl IH]; intros printed; cbn [print_lines];
    [constructor|].
  destruct (ok printed m); [|constructor].
  apply bind_events; [repeat constructor; exact Hm|]. intros _. apply IH.
Qed.

Lemma report_events_of (P : event → Prop) e args output_path raw counts :
  P (Print (Saved output_path)) →
  P (Print (TopWords (most_common 20 counts))) →
  P (Print (TopHeader (print_top args))) →
  Forall (fun wc => P (Print (TopLine wc.1 wc.2)))
         (most_common (print_top args) counts) →
  (∀ word, P (Print (DebugLine word (get raw word 0) (get counts word 0)))) →
  Forall P (report e args output_path raw counts).1.
Proof.
  intros Hs Ht Hh Hl Hd. unfold report, report_lines.
  apply print_lines_events.
  repeat constructor; [exact Hs|exact Ht|]. apply Forall_app. split.
  - destruct (print_top args =? 0)%Z; constructor; [exact Hh|].
    apply Forall_fmap. exact Hl.
  - destruct (truthy (debug_words args)); [|constructor].
    apply Forall_fmap, Forall_forall. intros word _. apply Hd.
Qed.

Lemma bind_value {A B} (a : A) (f : A → M B) : (([], Value a) : M A) ≫= f = f a.
Proof. rewrite bind_unfold. unfold bind. destruct (f a). reflexivity. Qed.

Lemma process_events (P : event → Prop) e args wordcloud stops :
  Forall P (all_words e args).1 →
  (∀ image, P (ToFile (Path e (output args)) image)) →
  (∀ all, Forall P (report e args (Path e (output args)) (Counter all)
                      (Counter (remove_stopwords stops all))).1) →
  Forall P (process e args wordcloud stops).1.
Proof.
  intros Ha Hw Hr. unfold process.
  apply bind_events; [exact Ha|]. intros all.
  apply bind_events.
  { destruct (generate_from_frequencies _ _ _); constructor. }
  intros image. apply bind_events.
  { destruct (to_file _ _ _); repeat constructor. apply Hw. }
  intros _. apply bind_events; [apply Hr|]. intros _. constructor.
Qed.

(** C7: when the file named by [--stopwords] does not exist, the stopword
    stage prints that it was not found and the run returns 1 without
    writing an image; when [--stopwords] is not given and the file
    [stopwords.txt] above the script does not exist, the stopword stage
    yields the other stopwords without any event, the run goes on: with
    the [wordcloud] package, the input folder and a listed file it is the
    run of the later stages with the stopwords of the library and of
    [--extra-stopwords], and it never prints that a stopwords file was not
    found. *)
Theorem stopwords_file_missing (e : Env) (args : Args) :
  (truthy (stopwords args) = true →
   exists_ e (Path e (stopwords args)) = false →
   (∀ builtin,
      load_stopwords e args builtin
      = ([Print (StopwordsNotFound (Path e (stopwords args)))],
         Stop (Return 1)))
   ∧ exit_status (main e args) = Return 1
   ∧ ¬ writes_png (main e args))
  ∧ (stopwords args = [] →
     exists_ e (child (child (script_dir e) (lit "..")) (lit "stopwords.txt"))
     = false →
     (∀ builtin,
        load_stopwords e args builtin
        = ([], Value (builtin ∪ ∅ ∪ extra_stopword_set e args)))
     ∧ (∀ wordcloud,
          import_wordcloud e = Some wordcloud →
          exists_ e (input_dir e args) = true →
          tex_files e args ≠ [] ∨ pdfs e args ≠ [] →
          main e args
          = finish (process e args wordcloud
                      (STOPWORDS wordcloud ∪ ∅ ∪ extra_stopword_set e args)))
     ∧ Forall (fun ev => ¬ is_stopwords_not_found ev) (main e args).1).
Proof.
  split; [intros Ht Hex; split|intros Hf Hfex; split; [|split]].
  - intros builtin. apply load_stopwords_not_found; assumption.
  - unfold main, main_body.
    destruct (import_wordcloud e) as [wordcloud|];
      [|split; [reflexivity|apply (not_writes_png_prints [_])]].
    destruct (exists_ e (input_dir e args));
      [|split; [reflexivity|apply (not_writes_png_prints [_])]].
    destruct (negb (truthy (tex_files e args))
              && negb (truthy (pdfs e args)));
      [split; [reflexivity|apply (not_writes_png_prints [_])]|].
    cbn [negb]. rewrite load_stopwords_not_found by assumption.
    split; [reflexivity|apply (not_writes_png_prints [_])].
  - intros builtin. apply load_stopwords_fallback_absent; assumption.
  - intros wordcloud Hw Hdir Hfiles. unfold main, main_body.
    rewrite Hw, Hdir. cbn [negb].
    assert (Hl : negb (truthy (tex_files e args))
                 && negb (truthy (pdfs e args)) = false).
    { destruct Hfiles as [H|H]; rewrite (truthy_true _ H);
        [reflexivity|apply andb_false_r]. }
    rewrite Hl, load_stopwords_fallback_absent by assumption.
    rewrite bind_value. reflexivity.
  - apply main_events. unfold main_body.
    assert (Hq : ∀ m, (∀ p, m ≠ StopwordsNotFound p) →
                      ¬ is_stopwords_not_found (Print m)).
    { intros m Hm [p Hp]. injection Hp as ->. exact (Hm p eq_refl). }
    assert (Hr : ∀ p, ¬ is_stopwords_not_found (ReadText p))
      by (intros p [q Hq']; discriminate).
    assert (Hx : ∀ p, ¬ is_stopwords_not_found (ExtractText p))
      by (intros p [q Hq']; discriminate).
    destruct (import_wordcloud e) as [wordcloud|].
    2:{ repeat constructor. apply Hq. discriminate. }
    destruct (negb (exists_ e (input_dir e args))).
    { repeat constructor. apply Hq. discriminate. }
    destruct (negb (truthy (tex_files e args))
              && negb (truthy (pdfs e args))).
    { repeat constructor. apply Hq. discriminate. }
    rewrite load_stopwords_fallback_absent by assumption.
    apply bind_events; [constructor|]. intros stops.
    apply process_events.
    + apply all_words_events; [exact Hr|exact Hx|]. apply Hq. discriminate.
    + intros image [q Hq']. discriminate.
    + intros all. apply report_events_of; try (apply Hq; discriminate).
      * apply Forall_forall. intros wc _. apply Hq. discriminate.
      * intros word. apply Hq. discriminate.
Qed.

(** C8: when the input path does not exist, the run returns 1 and writes
    no image; with the [wordcloud] package present, all it does is print
    that the input folder was not found. *)
Theorem missing_input_dir (e : Env) (args : Args) :
  exists_ e (input_dir e args) = false →
  exit_status (main e args) = Return 1
  ∧ ¬ writes_png (main e args)
  ∧ (∀ wordcloud,
       import_wordcloud e = Some wordcloud →
       main e args = ([Print (InputNotFound (input_dir e args))], Return 1)).
Proof.
  intros Hex. unfold main, main_body. rewrite Hex.
  destruct (import_wordcloud e) as [wordcloud|]; cbn [negb].
  - repeat split.
    + apply (not_writes_png_prints [_]).
  - repeat split.
    + apply (not_writes_png_prints [_]).
    + intros wordcloud H. discriminate.
Qed.

(** C9: when the input path is a regular file, the existence check passes,
    both listings are empty, and the run prints that no input file was
    found and returns 1. *)
Theorem input_is_regular_file (e : Env) (args : Args)
  (wordcloud : wordcloud_lib) (text : str) :
  import_wordcloud e = Some wordcloud →
  fs e (input_dir e args) = Some (File text) →
  exists_ e (input_dir e args) = true
  ∧ tex_files e args = [] ∧ pdfs e args = []
  ∧ main e args = ([Print (NoInputFiles (input_dir e args))], Return 1).
Proof.
  intros Hwc Hfile.
  assert (Hex : exists_ e (input_dir e args) = true)
    by (unfold exists_; rewrite Hfile; reflexivity).
  assert (Htex : tex_files e args = [])
    by (unfold tex_files, glob; rewrite Hfile; reflexivity).
  assert (Hpdf : pdfs e args = [])
    by (unfold pdfs, glob; rewrite Hfile; reflexivity).
  repeat split; try assumption.
  unfold main, main_body. rewrite Hwc, Hex, Htex, Hpdf. reflexivity.
Qed.

(** ** The raw table and the stopwords *)

Lemma clean_text_case_tables lower1 lower2 text min_len :
  _clean_text lower1 text min_len = _clean_text lower2 text min_len.
Proof. unfold _clean_text. rewrite !normalize_words. reflexivity. Qed.

(** C10: two runs with the same input directory, the same listing of it,
    the same LaTeX files, the same PDF extractor and the same minimum
    length compute the same raw table, whatever their stopwords file,
    their [--stopwords] and [--extra-stopwords] arguments and the stopword
    list of the library. *)
Theorem raw_counts_independent (e1 e2 : Env) (args1 args2 : Args) :
  input_dir e1 args1 = input_dir e2 args2 →
  min_len args1 = min_len args2 →
  import_pdfminer e1 = import_pdfminer e2 →
  fs e1 (input_dir e1 args1) = fs e2 (input_dir e2 args2) →
  Forall (fun tex => fs e1 tex = fs e2 tex) (tex_files e1 args1) →
  raw_counts e1 args1 = raw_counts e2 args2.
Proof.
  intros Hdir Hmin Hpdf Hfs Hfiles.
  assert (Htex : tex_files e1 args1 = tex_files e2 args2).
  { unfold tex_files, glob. rewrite Hfs, Hdir. reflexivity. }
  assert (Hpdfs : pdfs e1 args1 = pdfs e2 args2).
  { unfold pdfs, glob. rewrite Hfs, Hdir. reflexivity. }
  unfold raw_counts. f_equal. unfold all_words.
  rewrite <- Htex, <- Hpdfs, <- Hpdf.
  destruct (truthy (tex_files e1 args1)).
  - f_equal. apply for_each_ext.
    eapply Forall_impl; [exact Hfiles|]. intros tex H. cbn beta in H.
    unfold tex_words, read_text. rewrite H, Hmin.
    destruct (fs e2 tex) as [[text|names]|]; try reflexivity.
    unfold mbind, M_bind, bind, emit, mret, M_ret, ret. cbn [app].
    rewrite (clean_text_case_tables (case_tables e1) (case_tables e2)).
    reflexivity.
  - destruct (import_pdfminer e1) as [extract_text|]; [|reflexivity].
    f_equal. apply for_each_ext, Forall_forall. intros pdf _.
    unfold pdf_words. rewrite Hmin.
    destruct (extract_text pdf) as [text|]; [|reflexivity].
    rewrite (clean_text_case_tables (case_tables e1) (case_tables e2)).
    reflexivity.
Qed.

(** ** A concrete run *)

(** The run with the default arguments reads the two LaTeX files in sorted
    order, writes the image and returns 0. *)
Example demo_run :
  main demo_env (args_stopwords [] [])
  = ([ReadText [lit "papers"; lit "a.tex"];
      ReadText [lit "papers"; lit "b.tex"];
      ToFile [lit "wordcloud.png"] [137; 80; 78; 71];
      Print (Saved [lit "wordcloud.png"]);
      Print (TopWords [(lit "quantum", 2%nat); (lit "dots", 1%nat);
                       (lit "paper", 1%nat); (lit "model", 1%nat);
                       (lit "wells", 1%nat)]);
      Print (DebugLine (lit "the") 3 0);
      Print (DebugLine (lit "quantum") 2 2)],
     Return 0).
Proof. vm_compute. reflexivity. Qed.

(** A run whose second line of the report cannot be printed: the image is
    written, and an exception ends the run. *)
Example demo_run_closed_stdout :
  main demo_env_closed_stdout (args_stopwords [] [])
  = ([ReadText [lit "papers"; lit "a.tex"];
      ReadText [lit "papers"; lit "b.tex"];
      ToFile [lit "wordcloud.png"] [137; 80; 78; 71];
      Print (Saved [lit "wordcloud.png"])],
     Raised).
Proof. vm_compute. reflexivity. Qed.

(** A run whose image cannot be written: nothing is written or printed,
    and an exception ends the run. *)
Example demo_run_no_write :
  main demo_env_no_write (args_stopwords [] [])
  = ([ReadText [lit "papers"; lit "a.tex"];
      ReadText [lit "papers"; lit "b.tex"]],
     Raised).
Proof. vm_compute. reflexivity. Qed.


Lemma stopwords_file_missing_witness :
  (truthy (stopwords (args_stopwords (lit "missing.txt") [])) = true
   ∧ exists_ demo_env
       (Path demo_env (stopwords (args_stopwords (lit "missing.txt") [])))
     = false
   ∧ exit_status (main demo_env (args_stopwords (lit "missing.txt") []))
     = Return 1
   ∧ ¬ writes_png (main demo_env (args_stopwords (lit "missing.txt") [])))
  ∧ (stopwords default_args = []
     ∧ exists_ demo_env
         (child (child (script_dir demo_env) (lit "..")) (lit "stopwords.txt"))
       = false
     ∧ main demo_env default_args
       = finish (process demo_env default_args demo_wordcloud
                   (STOPWORDS demo_wordcloud ∪ ∅
                    ∪ extra_stopword_set demo_env default_args))
     ∧ Forall (fun ev => ¬ is_stopwords_not_found ev)
         (main demo_env default_args).1).
Proof.
  split.
  - split; [reflexivity|]. split; [reflexivity|].
    apply (proj1 (stopwords_file_missing demo_env
                    (args_stopwords (lit "missing.txt") [])) eq_refl eq_refl).
  - split; [reflexivity|]. split; [reflexivity|].
    destruct (proj2 (stopwords_file_missing demo_env default_args)
                eq_refl eq_refl) as (_ & Hrun & Hquiet).
    split; [|exact Hquiet].
    apply (Hrun demo_wordcloud eq_refl eq_refl).
    left. vm_compute. discriminate.
Defined.

Lemma missing_input_dir_witness :
  exists_ demo_env (input_dir demo_env (args_input (lit "nowhere"))) = false
  ∧ exit_status (main demo_env (args_input (lit "nowhere"))) = Return 1
  ∧ ¬ writes_png (main demo_env (args_input (lit "nowhere"))).
Proof.
  pose proof (missing_input_dir demo_env (args_input (lit "nowhere")) eq_refl)
    as H.
  split; [reflexivity|]. split; apply H.
Defined.

Lemma input_is_regular_file_witness :
  import_wordcloud demo_env = Some demo_wordcloud
  ∧ fs demo_env (input_dir demo_env (args_input (lit "README")))
    = Some (File (lit "read me"))
  ∧ main demo_env (args_input (lit "README"))
    = ([Print (NoInputFiles (input_dir demo_env (args_input (lit "README"))))],
       Return 1).
Proof.
  pose proof (input_is_regular_file demo_env (args_input (lit "README"))
                demo_wordcloud (lit "read me") eq_refl eq_refl) as H.
  split; [reflexivity|]. split; [reflexivity|]. apply H.
Defined.

Lemma raw_counts_independent_witness :
  raw_counts demo_env (args_stopwords [] [])
  = raw_counts demo_env_stopwords
      (args_stopwords (lit "stop.txt") (lit "dots,wells")).
Proof.
  apply raw_counts_independent.
  - reflexivity.
  - reflexivity.
  - reflexivity.
  - reflexivity.
  - repeat constructor.
Defined.

(** * Further properties *)

(** ** Substitution in general *)

Lemma match_len_le r prev s n : match_len r prev s = Some n → (n ≤ length s)%nat.
Proof.
  unfold match_len. destruct (exec r prev s _); [|discriminate].
  intros [= <-]. lia.
Qed.

Lemma sub_scan_length r c s :
  (1 ≤ min_width r)%nat →
  ∀ skip prev, (skip ≤ length s)%nat →
    (length (sub_scan r [c] skip prev s) + skip ≤ length s)%nat.
Proof.
  intros Hr. induction s as [|x s IH]; intros skip prev Hskip.
  - cbn [length] in Hskip. replace skip with O by lia. cbn [sub_scan].
    destruct (match_len r prev []) as [[|n]|] eqn:E; cbn [app length]; try lia.
    + apply match_len_min_width in E. lia.
    + apply match_len_le in E. cbn [length] in E. lia.
  - destruct skip as [|skip]; cbn [sub_scan].
    + destruct (match_len r prev (x :: s)) as [[|n]|] eqn:E.
      * apply match_len_min_width in E. lia.
      * apply match_len_le in E. cbn [length] in E.
        specialize (IH n (Some x) ltac:(lia)). cbn [app length]. lia.
      * specialize (IH O (Some x) ltac:(lia)). cbn [length]. lia.
    + cbn [length] in *. specialize (IH skip (Some x) ltac:(lia)). lia.
Qed.

Lemma re_sub_length r c s :
  (1 ≤ min_width r)%nat → (length (re_sub r [c] s) ≤ length s)%nat.
Proof.
  intros Hr. pose proof (sub_scan_length r c s Hr O None ltac:(lia)).
  unfold re_sub. lia.
Qed.

Lemma replace_chr_map c d s :
  replace_chr c [d] s = map (fun x => if x =? c then d else x) s.
Proof.
  unfold replace_chr. induction s as [|x s IH]; cbn [flat_map map]; [reflexivity|].
  rewrite IH. destruct (x =? c); reflexivity.
Qed.

Lemma sub_scan_no_match r repl s :
  (∀ prev x s', x ∈ s → match_len r prev (x :: s') = None) →
  (∀ prev, match_len r prev [] = None) →
  ∀ prev, sub_scan r repl O prev s = s.
Proof.
  intros Hs Hnil. induction s as [|x s IH]; intros prev; cbn [sub_scan].
  - rewrite Hnil. reflexivity.
  - rewrite Hs by left. f_equal. apply IH.
    intros prev' y s' Hy. apply Hs. right. exact Hy.
Qed.

Lemma re_sub_absent c r repl s :
  starts_at c r → c ∉ s → re_sub r repl s = s.
Proof.
  intros Hr Hc. apply sub_scan_no_match.
  - intros prev x s' Hx. apply Hr. cbn [head].
    intros [= ->]. contradiction.
  - intros prev. apply Hr. discriminate.
Qed.

Lemma starts_at_chr c r : starts_at c (Seq (Chr c) r).
Proof.
  intros prev [|x s] H; unfold match_len; cbn [exec]; [reflexivity|].
  rewrite eqb_out; [reflexivity|]. cbn [head] in H. congruence.
Qed.

Lemma starts_at_bol_chr c r : starts_at c (Seq Bol (Seq (Chr c) r)).
Proof.
  intros prev [|x s] H; unfold match_len; cbn [exec];
    destruct (at_bol prev); try reflexivity.
  rewrite eqb_out; [reflexivity|]. cbn [head] in H. congruence.
Qed.

(** ** What [_strip_latex] leaves *)

(** X1: the extracted text is never longer than the LaTeX text. *)
Theorem strip_latex_length (text : str) :
  (length (_strip_latex text) ≤ length text)%nat.
Proof.
  unfold _strip_latex, drop_comments. rewrite !replace_chr_map, !length_map.
  pose proof (re_sub_length re_comment SP text ltac:(vm_compute; lia)).
  pose proof (re_sub_length re_inline_math SP (re_sub re_comment [SP] text)
                ltac:(vm_compute; lia)).
  pose proof (re_sub_length re_display_math SP
                (re_sub re_inline_math [SP] (re_sub re_comment [SP] text))
                ltac:(vm_compute; lia)).
  pose proof (re_sub_length re_ref_command SP
                (re_sub re_display_math [SP]
                   (re_sub re_inline_math [SP] (re_sub re_comment [SP] text)))
                ltac:(vm_compute; lia)).
  pose proof (re_sub_length re_command SP
                (re_sub re_ref_command [SP]
                   (re_sub re_display_math [SP]
                      (re_sub re_inline_math [SP]
                         (re_sub re_comment [SP] text))))
                ltac:(vm_compute; lia)).
  eapply Nat.le_trans; [exact H3|]. eapply Nat.le_trans; [exact H2|].
  eapply Nat.le_trans; [exact H1|]. eapply Nat.le_trans; [exact H0|].
  exact H.
Qed.

(** X2: a text without percent sign, dollar sign, backslash and braces is
    returned as it is. *)
Theorem strip_latex_plain (text : str) :
  forallb (fun c => negb (is_latex_special c)) text = true →
  _strip_latex text = text.
Proof.
  intros H.
  assert (Hc : ∀ c, is_latex_special c = true → c ∉ text).
  { intros c Hc Hin. rewrite forallb_forall in H.
    apply list_elem_of_In, H in Hin. rewrite Hc in Hin. discriminate. }
  unfold _strip_latex, drop_comments.
  rewrite (re_sub_absent PERCENT re_comment);
    [|apply starts_at_bol_chr|apply Hc; reflexivity].
  rewrite (re_sub_absent DOLLAR re_inline_math);
    [|apply starts_at_chr|apply Hc; reflexivity].
  rewrite (re_sub_absent BACKSLASH re_display_math);
    [|apply starts_at_chr|apply Hc; reflexivity].
  rewrite (re_sub_absent BACKSLASH re_ref_command);
    [|apply starts_at_chr|apply Hc; reflexivity].
  rewrite (re_sub_absent BACKSLASH re_command);
    [|apply starts_at_chr|apply Hc; reflexivity].
  rewrite !replace_chr_map.
  assert (H1 : map (fun x => if x =? 123 then SP else x) text = text).
  { rewrite <- (map_id text) at 2. apply map_ext_Forall, Forall_forall.
    intros x Hx. destruct (x =? 123) eqn:E; [|reflexivity].
    apply N.eqb_eq in E. subst x. exfalso. revert Hx. apply Hc. reflexivity. }
  rewrite H1. rewrite <- (map_id text) at 2. apply map_ext_Forall, Forall_forall.
  intros x Hx. destruct (x =? 125) eqn:E; [|reflexivity].
  apply N.eqb_eq in E. subst x. exfalso. revert Hx. apply Hc. reflexivity.
Qed.

Lemma strip_latex_plain_witness :
  forallb (fun c => negb (is_latex_special c))
          (lit "Quantum dots, 2 wells (see [3]).") = true
  ∧ _strip_latex (lit "Quantum dots, 2 wells (see [3]).")
    = lit "Quantum dots, 2 wells (see [3]).".
Proof.
  split; [reflexivity|]. apply strip_latex_plain. reflexivity.
Defined.

(** X3: the extracted text contains no brace. *)
Theorem strip_latex_no_braces (text : str) :
  (123 ∉ _strip_latex text) ∧ (125 ∉ _strip_latex text).
Proof.
  unfold _strip_latex. rewrite !replace_chr_map.
  split; intros H.
  - apply list_elem_of_fmap in H as (x & Hx & H).
    destruct (x =? 125) eqn:E; [discriminate|]. subst x.
    apply list_elem_of_fmap in H as (y & Hy & _).
    destruct (y =? 123) eqn:Ey; [discriminate|].
    subst y. discriminate.
  - apply list_elem_of_fmap in H as (x & Hx & _).
    destruct (x =? 125) eqn:E; [discriminate|]. subst x. discriminate.
Qed.

(** ** Commands *)

Lemma accepts_all_id : accepts_all id_cont.
Proof. intros prev s. eexists. reflexivity. Qed.

Lemma or_else_is_Some {A} (x y : option A) : is_Some y → is_Some (or_else x y).
Proof. intros H. destruct x; [eexists; reflexivity|exact H]. Qed.

Lemma greedy_accepts p k : accepts_all k → accepts_all (greedy p k).
Proof.
  intros Hk prev s. revert prev.
  induction s as [|c s IH]; intros prev; cbn [greedy]; [apply Hk|].
  destruct (p c); [|apply Hk]. apply or_else_is_Some, Hk.
Qed.

Lemma opt_accepts r k :
  accepts_all k → accepts_all (fun prev s => exec (Opt r) prev s k).
Proof. intros Hk prev s. cbn [exec]. apply or_else_is_Some, Hk. Qed.

Lemma seq_opt_accepts r1 r2 k :
  accepts_all (fun prev s => exec r2 prev s k) →
  accepts_all (fun prev s => exec (Seq (Opt r1) r2) prev s k).
Proof. intros H prev s. cbn [exec]. apply or_else_is_Some, H. Qed.

(** A backslash followed by a letter always starts a match of the command
    pattern. *)
Lemma command_matches prev x s :
  is_letter x = true → is_Some (match_len re_command prev (BACKSLASH :: x :: s)).
Proof.
  intros Hx. unfold match_len.
  assert (H : is_Some (exec re_command prev (BACKSLASH :: x :: s) id_cont)).
  { unfold re_command.
    remember (Seq (Opt (Chr 42)) _) as tail eqn:Et.
    cbn [exec]. rewrite N.eqb_refl, Hx. apply greedy_accepts. subst tail.
    apply seq_opt_accepts, seq_opt_accepts, opt_accepts, accepts_all_id. }
  destruct H as [rest H]. unfold id_cont in H. rewrite H.
  eexists. reflexivity.
Qed.

Lemma has_command_cons c out :
  has_command (c :: out)
  = ((c =? BACKSLASH) && match head out with
                         | Some d => is_letter d
                         | None => false
                         end)
    || has_command out.
Proof.
  destruct out as [|d out]; cbn [has_command head].
  - rewrite andb_false_r. reflexivity.
  - reflexivity.
Qed.

Lemma sub_scan_head r prev s h :
  head (sub_scan r [SP] O prev s) = Some h →
  h = SP ∨ (head s = Some h ∧ match_len r prev s = None).
Proof.
  destruct s as [|c s]; cbn [sub_scan].
  - destruct (match_len r prev []) as [[|n]|] eqn:E; cbn [app head];
      intros [= H]; left; congruence.
  - destruct (match_len r prev (c :: s)) as [[|n]|] eqn:E; cbn [app head];
      intros [= H]; [left; congruence..|].
    right. split; congruence.
Qed.

Lemma sub_scan_no_command s :
  ∀ skip prev, has_command (sub_scan re_command [SP] skip prev s) = false.
Proof.
  induction s as [|c s IH]; intros skip prev.
  - destruct skip; [|reflexivity]. cbn [sub_scan].
    destruct (match_len re_command prev []) as [[|n]|]; reflexivity.
  - destruct skip as [|skip]; [|apply IH]. cbn [sub_scan].
    destruct (match_len re_command prev (c :: s)) as [[|n]|] eqn:E.
    + apply match_len_min_width in E. vm_compute in E. lia.
    + cbn [app]. rewrite has_command_cons, IH. reflexivity.
    + rewrite has_command_cons, IH, orb_false_r.
      destruct (c =? BACKSLASH) eqn:Ec; [|reflexivity]. cbn [andb].
      destruct (head (sub_scan re_command [SP] O (Some c) s)) as [h|] eqn:Eh;
        [|reflexivity].
      apply sub_scan_head in Eh as [->|[Hs _]]; [reflexivity|].
      destruct (is_letter h) eqn:Hh; [|reflexivity].
      destruct s as [|x s]; [discriminate|]. injection Hs as ->.
      apply N.eqb_eq in Ec. subst c.
      destruct (command_matches prev h s Hh) as [n Hn]. congruence.
Qed.

Lemma map_no_command (f : char → char) s :
  (∀ x, f x = BACKSLASH → x = BACKSLASH) →
  (∀ x, is_letter (f x) = true → is_letter x = true) →
  has_command s = false → has_command (map f s) = false.
Proof.
  intros Hb Hl. induction s as [|c s IH]; [reflexivity|].
  rewrite map_cons, !has_command_cons. intros H.
  apply orb_false_iff in H as [H1 H2]. rewrite (IH H2), orb_false_r.
  destruct s as [|d s]; cbn [map head] in *; [apply andb_false_r|].
  destruct (f c =? BACKSLASH) eqn:Ec; [|reflexivity].
  apply N.eqb_eq, Hb in Ec. subst c. rewrite N.eqb_refl in H1.
  cbn [andb] in *. destruct (is_letter (f d)) eqn:Ed; [|reflexivity].
  apply Hl in Ed. congruence.
Qed.

Lemma brace_to_space c x :
  c ≠ BACKSLASH →
  ((if x =? c then SP else x) = BACKSLASH → x = BACKSLASH)
  ∧ (is_letter (if x =? c then SP else x) = true → is_letter x = true).
Proof.
  intros Hc. destruct (x =? c); split; trivial; discriminate.
Qed.

(** X4: in the extracted text no backslash is followed by a letter: no
    command name is left. *)
Theorem strip_latex_no_command (text : str) :
  has_command (_strip_latex text) = false.
Proof.
  unfold _strip_latex. rewrite !replace_chr_map.
  apply map_no_command;
    [intros x; apply brace_to_space; discriminate
    |intros x; apply brace_to_space; discriminate|].
  apply map_no_command;
    [intros x; apply brace_to_space; discriminate
    |intros x; apply brace_to_space; discriminate|].
  apply sub_scan_no_command.
Qed.

(** ** The words of [_clean_text] as runs of letters *)

Lemma words_runs s : words s = runs (fun c => negb (is_space c)) s.
Proof.
  induction s as [|c s IH]; [reflexivity|].
  cbn [words runs]. rewrite IH.
  destruct (is_space c); cbn [negb]; [reflexivity|].
  destruct s as [|d s]; [reflexivity|].
  destruct (is_space d); reflexivity.
Qed.

Lemma runs_map_keep (p q : char → bool) (f : char → char) s :
  (∀ c, q (f c) = p c) → (∀ c, p c = true → f c = c) →
  runs q (map f s) = runs p s.
Proof.
  intros Hq Hf. induction s as [|c s IH]; [reflexivity|].
  cbn [map runs]. rewrite Hq, IH. destruct (p c) eqn:Ec; [|reflexivity].
  rewrite (Hf c Ec). destruct s as [|d s]; [reflexivity|].
  cbn [map]. rewrite Hq. reflexivity.
Qed.

Lemma words_keep text : words (keep text) = runs is_letter text.
Proof.
  rewrite words_runs. unfold keep. apply runs_map_keep.
  - intros c. destruct (is_letter c) eqn:El; cbn [orb].
    + rewrite (letter_not_space c El). reflexivity.
    + destruct (is_space c) eqn:Es; [rewrite Es|]; reflexivity.
  - intros c ->. reflexivity.
Qed.

Lemma runs_map (p : char → bool) (f : char → char) s :
  (∀ c, p (f c) = p c) → runs p (map f s) = map (map f) (runs p s).
Proof.
  intros Hp. induction s as [|c s IH]; [reflexivity|].
  cbn [map runs]. rewrite Hp, IH. destruct (p c); [|reflexivity].
  destruct s as [|d s]; [reflexivity|].
  cbn [map]. rewrite Hp. destruct (p d); [|reflexivity].
  destruct (runs p (d :: s)); reflexivity.
Qed.

Lemma runs_head (p : char → bool) c s : p c = true → runs p (c :: s) ≠ [].
Proof.
  intros Hc. cbn [runs]. rewrite Hc. destruct s as [|d s]; [discriminate|].
  destruct (p d); [|discriminate]. destruct (runs p (d :: s)); discriminate.
Qed.

Lemma runs_app (p : char → bool) a x b :
  p x = false → runs p (a ++ x :: b) = runs p a ++ runs p b.
Proof.
  intros Hx. induction a as [|c a IH].
  - cbn [app runs]. rewrite Hx. reflexivity.
  - cbn [app runs]. destruct (p c) eqn:Ec; [|exact IH].
    destruct a as [|d a].
    + cbn [app runs]. rewrite Hx. reflexivity.
    + cbn [app] in *. destruct (p d) eqn:Ed.
      * rewrite IH. pose proof (runs_head p d a Ed) as Hne.
        destruct (runs p (d :: a)); [congruence|reflexivity].
      * rewrite IH. reflexivity.
Qed.

Section CleanTextRuns.

Variable unicode_lower : str → str.

Lemma clean_text_letter_runs text min_len :
  _clean_text unicode_lower text min_len
  = match runs is_letter text with
    | [] => if len_ge min_len [] then [[]] else []
    | _ :: _ =>
        List.filter (len_ge min_len) (map (map ascii_lower) (runs is_letter text))
    end.
Proof.
  unfold _clean_text. rewrite normalize_words.
  pose proof (lowered_words_ok text) as H. rewrite words_keep in *.
  destruct (runs is_letter text) as [|w ws]; [reflexivity|].
  rewrite split_join; [reflexivity|discriminate|].
  eapply Forall_impl; [exact H|]. apply word_ok_no_sep.
Qed.

Lemma clean_text_positive text min_len :
  (1 ≤ min_len)%Z →
  _clean_text unicode_lower text min_len
  = List.filter (len_ge min_len) (map (map ascii_lower) (runs is_letter text)).
Proof.
  intros Hm. rewrite clean_text_letter_runs.
  destruct (runs is_letter text); [|reflexivity].
  replace (len_ge min_len []) with false; [reflexivity|].
  symmetry. apply Z.leb_gt. cbn [length]. lia.
Qed.

(** X5: the tokens of a text are its maximal runs of ASCII letters, in
    order, in lower case, without those shorter than [min_len]; a text
    without any letter gives no token, or the empty token when [min_len]
    is at most 0. *)
Theorem clean_text_runs (text : str) (min_len : Z) :
  _clean_text unicode_lower text min_len
  = match runs is_letter text with
    | [] => if (min_len <=? 0)%Z then [[]] else []
    | ws => List.filter (len_ge min_len) (map (map ascii_lower) ws)
    end.
Proof.
  rewrite clean_text_letter_runs. destruct (runs is_letter text); reflexivity.
Qed.

(** X6: the case of the letters does not matter: a text and its lower-case
    form have the same tokens. *)
Theorem clean_text_case_insensitive (text : str) (min_len : Z) :
  _clean_text unicode_lower (map ascii_lower text) min_len
  = _clean_text unicode_lower text min_len.
Proof.
  rewrite !clean_text_letter_runs.
  assert (Hp : ∀ c, is_letter (ascii_lower c) = is_letter c).
  { intros c. destruct (is_letter c) eqn:E.
    - apply lower_is_letter, ascii_lower_letter, E.
    - unfold ascii_lower. destruct (is_upper c) eqn:Eu; [|exact E].
      unfold is_letter in E. rewrite Eu in E. discriminate. }
  rewrite (runs_map is_letter ascii_lower text Hp).
  destruct (runs is_letter text) as [|w ws] eqn:E; [reflexivity|].
  rewrite <- E. cbn [map]. rewrite E. f_equal.
  rewrite <- (map_id (map (map ascii_lower) (w :: ws))) at 2.
  rewrite !map_map. apply map_ext. intros u. rewrite map_map.
  rewrite <- (map_id (map ascii_lower u)), map_map. apply map_ext. intros c.
  unfold ascii_lower at 1. destruct (is_upper (ascii_lower c)) eqn:Eu; [|reflexivity].
  unfold ascii_lower in *. destruct (is_upper c) eqn:Ec.
  - apply in_range_spec in Ec. apply in_range_spec in Eu. lia.
  - congruence.
Qed.

(** X7: for a minimum length of at least 1, the tokens of two texts joined
    by a character that is not a letter are the tokens of the first
    followed by the tokens of the second. *)
Theorem clean_text_app (a b : str) (x : char) (min_len : Z) :
  is_letter x = false →
  (1 ≤ min_len)%Z →
  _clean_text unicode_lower (a ++ x :: b) min_len
  = _clean_text unicode_lower a min_len ++ _clean_text unicode_lower b min_len.
Proof.
  intros Hx Hm. rewrite !clean_text_positive by assumption.
  rewrite runs_app by assumption. rewrite map_app. apply List.filter_app.
Qed.

End CleanTextRuns.

Lemma clean_text_app_witness :
  is_letter LF = false ∧ (1 ≤ 3)%Z
  ∧ _clean_text no_case_tables (lit "Quantum dots" ++ LF :: lit "in wells") 3
    = _clean_text no_case_tables (lit "Quantum dots") 3
      ++ _clean_text no_case_tables (lit "in wells") 3.
Proof.
  split; [reflexivity|]. split; [lia|].
  apply (clean_text_app no_case_tables); [reflexivity|lia].
Defined.

(** ** An image is written exactly when the run succeeds *)

Lemma quiet_bind {A B} (m : M A) (f : A → M B) :
  quiet m → (∀ a, quiet (f a)) → quiet (m ≫= f).
Proof.
  intros [Hm Hst] Hf. split.
  - apply bind_events; [exact Hm|]. intros a. apply Hf.
  - rewrite bind_unfold. unfold bind. destruct m as [t [a|st']].
    + destruct (Hf a) as [_ Hfa]. destruct (f a) as [t' o]. exact Hfa.
    + intros st [= <-]. apply Hst. reflexivity.
Qed.

Lemma quiet_value {A} (a : A) : quiet (mret a : M A).
Proof. split; [constructor|]. intros st H. discriminate. Qed.

Lemma quiet_emit ev : no_image ev → quiet (emit ev).
Proof.
  intros H. split; [repeat constructor; exact H|]. intros st H'. discriminate.
Qed.

Lemma quiet_print m : quiet (print m).
Proof. apply quiet_emit. intros p image H. discriminate. Qed.

Lemma quiet_return_1 {A} : quiet (return_ 1 : M A).
Proof. split; [constructor|]. intros st [= <-]. left. reflexivity. Qed.

Lemma quiet_raise {A} : quiet (raise : M A).
Proof. split; [constructor|]. intros st [= <-]. right. reflexivity. Qed.

Lemma quiet_for_each {A B} (f : A → M B) l :
  (∀ x, quiet (f x)) → quiet (for_each f l).
Proof.
  intros Hf. induction l as [|x l IH]; cbn [for_each]; [apply quiet_value|].
  apply quiet_bind; [apply Hf|]. intros y.
  apply quiet_bind; [exact IH|]. intros ys. apply quiet_value.
Qed.

Lemma quiet_read_text e p : quiet (read_text e p).
Proof.
  unfold read_text. apply quiet_bind.
  - apply quiet_emit. intros q image H. discriminate.
  - intros _. destruct (fs e p) as [[text|names]|];
      [apply quiet_value|apply quiet_raise..].
Qed.

Lemma quiet_load_stopwords e args builtin : quiet (load_stopwords e args builtin).
Proof.
  unfold load_stopwords. apply quiet_bind; [|intros s; apply quiet_value].
  destruct (exists_ e (stop_path e args)).
  - apply quiet_bind; [apply quiet_read_text|]. intros text. apply quiet_value.
  - destruct (truthy (stopwords args)); [|apply quiet_value].
    apply quiet_bind; [apply quiet_print|]. intros _. apply quiet_return_1.
Qed.

Lemma quiet_all_words e args : quiet (all_words e args).
Proof.
  unfold all_words. destruct (truthy (tex_files e args)).
  - apply quiet_bind; [|intros ws; apply quiet_value].
    apply quiet_for_each. intros tex. unfold tex_words.
    apply quiet_bind; [apply quiet_read_text|]. intros text. apply quiet_value.
  - destruct (import_pdfminer e) as [extract_text|].
    + apply quiet_bind; [|intros ws; apply quiet_value].
      apply quiet_for_each. intros pdf. unfold pdf_words.
      apply quiet_bind.
      * apply quiet_emit. intros q image H. discriminate.
      * intros _. destruct (extract_text pdf); [apply quiet_value|apply quiet_raise].
    + apply quiet_bind; [apply quiet_print|]. intros _. apply quiet_return_1.
Qed.

Lemma print_lines_outcome ok lines :
  ∀ printed,
    Forall no_image (print_lines ok printed lines).1
    ∧ ((print_lines ok printed lines).2 = Value tt
       ∨ (print_lines ok printed lines).2 = Stop Raised).
Proof.
  induction lines as [|m lines IH]; intros printed; cbn [print_lines].
  - split; [constructor|left; reflexivity].
  - destruct (ok printed m); [|split; [constructor|right; reflexivity]].
    specialize (IH (printed ++ [m])). rewrite bind_unfold. unfold bind, print, emit.
    destruct (print_lines ok (printed ++ [m]) lines) as [t o].
    cbn [fst snd app] in *. destruct IH as [Ht Ho]. split; [|exact Ho].
    constructor; [|exact Ht]. intros p image H. discriminate.
Qed.

Lemma quiet_then {A} out (m : M A) (f : A → M Z) :
  quiet m → (∀ a, completes out (f a) ∨ aborts (f a)) →
  completes out (m ≫= f) ∨ aborts (m ≫= f).
Proof.
  intros [Hm Hst] Hf. rewrite bind_unfold. unfold bind.
  destruct m as [t [a|st]]; cbn [fst snd] in *.
  - destruct (Hf a) as [(Hv & [image Hw] & Hp)|(He & st & Hs & Hne)];
      destruct (f a) as [t' o]; cbn [fst snd] in *.
    + left. split; [exact Hv|]. split.
      * exists image. apply elem_of_app. right. exact Hw.
      * intros p i Hin. apply elem_of_app in Hin as [Hin|Hin]; [|eauto].
        rewrite Forall_forall in Hm. exfalso. exact (Hm _ Hin p i eq_refl).
    + right. split; [apply Forall_app; split; assumption|]. eauto.
  - right. split; [exact Hm|]. exists st. split; [reflexivity|].
    apply Hst. reflexivity.
Qed.

Lemma aborts_print_return_1 m : aborts (print m;; return_ 1).
Proof.
  split.
  - repeat constructor. intros p image H. discriminate.
  - exists (Return 1). split; [reflexivity|left; reflexivity].
Qed.

Lemma process_outcome e args wordcloud stops :
  completes (Path e (output args)) (process e args wordcloud stops)
  ∨ aborts (process e args wordcloud stops).
Proof.
  unfold process.
  apply quiet_then; [apply quiet_all_words|]. intros all.
  apply quiet_then.
  { destruct (generate_from_frequencies _ _ _);
      [apply quiet_value|apply quiet_raise]. }
  intros image.
  destruct (to_file wordcloud (Path e (output args)) image).
  - left.
    pose proof (print_lines_outcome (print_ok e)
                  (report_lines e args (Path e (output args)) (Counter all)
                     (Counter (remove_stopwords stops all))) []) as [Hr Ho].
    fold (report e args (Path e (output args)) (Counter all)
            (Counter (remove_stopwords stops all))) in Hr, Ho.
    rewrite !bind_unfold. unfold bind, emit.
    destruct (report _ _ _ _ _) as [t o]. cbn [fst snd] in *.
    assert (Hw : ∀ t', ToFile (Path e (output args)) image
                       ∈ ToFile (Path e (output args)) image :: t') by (intros; left).
    assert (Hp : ∀ t' p i, t' = t ∨ t' = t ++ [] →
                 ToFile p i ∈ ToFile (Path e (output args)) image :: t' →
                 p = Path e (output args)).
    { intros t' p i Ht' Hin. apply elem_of_cons in Hin as [Hin|Hin]; [congruence|].
      assert (Hin' : ToFile p i ∈ t)
        by (destruct Ht' as [->| ->]; [|rewrite app_nil_r in Hin]; exact Hin).
      rewrite Forall_forall in Hr. exfalso. exact (Hr _ Hin' p i eq_refl). }
    destruct Ho as [-> | ->]; cbn [fst snd app].
    + split; [left; reflexivity|]. split; [exists image; apply Hw|].
      intros p i. apply Hp. right. reflexivity.
    + split; [right; reflexivity|]. split; [exists image; apply Hw|].
      intros p i. apply Hp. left. reflexivity.
  - right. split; [constructor|]. exists Raised.
    split; [reflexivity|right; reflexivity].
Qed.

Lemma main_body_outcome e args :
  completes (Path e (output args)) (main_body e args) ∨ aborts (main_body e args).
Proof.
  unfold main_body.
  destruct (import_wordcloud e) as [wordcloud|];
    [|right; apply aborts_print_return_1].
  destruct (negb (exists_ e (input_dir e args)));
    [right; apply aborts_print_return_1|].
  destruct (negb (truthy (tex_files e args)) && negb (truthy (pdfs e args)));
    [right; apply aborts_print_return_1|].
  apply quiet_then; [apply quiet_load_stopwords|]. intros stops.
  apply process_outcome.
Qed.

(** X8: a run that returns 0 has written the image, a run that returns 1
    has written none, and no run writes but at the path given by
    [--output]. *)
Theorem image_written_on_success (e : Env) (args : Args) :
  (exit_status (main e args) = Return 0 → writes_png (main e args))
  ∧ (exit_status (main e args) = Return 1 → ¬ writes_png (main e args))
  ∧ (∀ p image, ToFile p image ∈ events (main e args) →
                p = Path e (output args)).
Proof.
  unfold writes_png, exit_status, events, main, finish.
  destruct (main_body_outcome e args)
    as [(Hv & [image Hw] & Hp)|(He & st & Hs & Hne)];
    destruct (main_body e args) as [t o]; cbn [fst snd] in *.
  - destruct Hv as [-> | ->]; cbn [fst snd].
    + split; [intros _; exists (Path e (output args)), image; exact Hw|].
      split; [discriminate|exact Hp].
    + split; [discriminate|]. split; [discriminate|exact Hp].
  - subst o. cbn [fst snd]. rewrite Forall_forall in He.
    assert (Hn : ¬ ∃ p i, ToFile p i ∈ t).
    { intros (p & i & Hin). exact (He _ Hin p i eq_refl). }
    split; [|split].
    + intros H. destruct Hne; congruence.
    + intros _. exact Hn.
    + intros p i Hin. exfalso. apply Hn. eauto.
Qed.

(** ** The PDF dependency *)

Lemma all_words_with_pdfminer pdfminer e args :
  tex_files e args ≠ [] →
  all_words (with_pdfminer pdfminer e) args = all_words e args.
Proof.
  intros H. rewrite (all_words_tex e args H).
  rewrite (all_words_tex (with_pdfminer pdfminer e) args H). reflexivity.
Qed.

(** X9: when the input folder has LaTeX files, the run does not depend on
    the pdfminer package: it is the same whether the import would succeed
    or fail, and whatever the package would extract. *)
Theorem pdfminer_unused_with_tex (pdfminer : option (path → option str))
  (e : Env) (args : Args) :
  tex_files e args ≠ [] →
  main (with_pdfminer pdfminer e) args = main e args.
Proof.
  intros H. unfold main, main_body, process.
  rewrite (all_words_with_pdfminer pdfminer e args H). reflexivity.
Qed.

Lemma pdfminer_unused_with_tex_witness :
  tex_files demo_env default_args ≠ []
  ∧ main (with_pdfminer None demo_env) default_args = main demo_env default_args.
Proof.
  assert (H : tex_files demo_env default_args ≠ []) by (vm_compute; discriminate).
  split; [exact H|]. exact (pdfminer_unused_with_tex None demo_env default_args H).
Defined.

(** ** The filtered table *)

(** X10: a word is in the filtered table exactly when it is in the raw
    table and is not a stopword. *)
Theorem filtered_keys (all_words : list str) (stops : gset str) (w : str) :
  has_key (Counter (remove_stopwords stops all_words)) w
  ↔ has_key (Counter all_words) w ∧ w ∉ stops.
Proof.
  rewrite !has_key_Counter. unfold remove_stopwords.
  rewrite list_elem_of_filter. tauto.
Qed.

(** ** The report *)

Lemma bind_events_value {A B} (P : event → Prop) (m : M A) (f : A → M B) :
  Forall P m.1 → (∀ a, m.2 = Value a → Forall P (f a).1) →
  Forall P (m ≫= f).1.
Proof.
  intros Hm Hf. rewrite bind_unfold. unfold bind.
  destruct m as [t [a|st]]; [|exact Hm].
  specialize (Hf a eq_refl). destruct (f a) as [t' o]. cbn [fst] in *.
  apply Forall_app. split; assumption.
Qed.

Lemma load_stopwords_events (P : event → Prop) e args builtin :
  (∀ p, P (ReadText p)) → (∀ p, P (Print (StopwordsNotFound p))) →
  Forall P (load_stopwords e args builtin).1.
Proof.
  intros Hr Hp. unfold load_stopwords.
  apply bind_events; [|intros s; constructor].
  destruct (exists_ e (stop_path e args)).
  - apply bind_events; [apply read_text_events, Hr|]. intros text. constructor.
  - destruct (truthy (stopwords args)); [|constructor].
    repeat constructor. apply Hp.
Qed.

Lemma load_stopwords_value e args builtin t stops :
  load_stopwords e args builtin = (t, Value stops) →
  builtin ∪ extra_stopword_set e args ⊆ stops.
Proof.
  unfold load_stopwords. rewrite bind_unfold. unfold bind.
  destruct (if exists_ e (stop_path e args) then _ else _) as [t' [s|st]];
    [|discriminate].
  cbn. intros [= _ <-]. set_solver.
Qed.

(** A property of the lines of the report holds of a whole run when it
    holds of the report for the stopword set of the run. *)
Lemma main_report_events (P : event → Prop) e args :
  (∀ ev, before_report ev → P ev) →
  (∀ wordcloud t stops all,
     import_wordcloud e = Some wordcloud →
     load_stopwords e args (STOPWORDS wordcloud) = (t, Value stops) →
     Forall P (report e args (Path e (output args)) (Counter all)
                 (Counter (remove_stopwords stops all))).1) →
  Forall P (main e args).1.
Proof.
  intros Hb Hr. apply main_events. unfold main_body.
  destruct (import_wordcloud e) as [wordcloud|] eqn:Ew.
  2:{ repeat constructor. apply Hb. exact I. }
  destruct (negb (exists_ e (input_dir e args))).
  { repeat constructor. apply Hb. exact I. }
  destruct (negb (truthy (tex_files e args)) && negb (truthy (pdfs e args))).
  { repeat constructor. apply Hb. exact I. }
  apply bind_events_value.
  { apply load_stopwords_events; intros p; apply Hb; exact I. }
  intros stops Hstops.
  destruct (load_stopwords e args (STOPWORDS wordcloud)) as [t o] eqn:El.
  cbn [snd] in Hstops. subst o.
  apply process_events.
  - apply all_words_events; intros; apply Hb; exact I.
  - intros image. apply Hb. exact I.
  - intros all. eapply Hr; [reflexivity|exact El].
Qed.

Lemma most_common_elem n m wc : wc ∈ most_common n m → wc ∈ m.
Proof.
  unfold most_common. intros H.
  rewrite <- (sorted_Permutation by_count_desc m).
  rewrite <- (take_drop (Z.to_nat n) (sorted by_count_desc m)).
  apply elem_of_app. left. exact H.
Qed.

Lemma counted_not_stopword (stops : gset str) all wc :
  wc ∈ Counter (remove_stopwords stops all) → wc.1 ∉ stops.
Proof.
  intros H.
  assert (Hk : has_key (Counter (remove_stopwords stops all)) wc.1).
  { unfold has_key. apply list_elem_of_fmap. exists wc. split; [reflexivity|exact H]. }
  apply (proj1 (has_key_Counter _ _)) in Hk. unfold remove_stopwords in Hk.
  apply list_elem_of_filter in Hk. apply Hk.
Qed.

(** X11: no word of the stopword list of the library and no word of
    [--extra-stopwords] is ever reported among the top words. *)
Theorem stopwords_never_reported (e : Env) (args : Args)
  (wordcloud : wordcloud_lib) :
  import_wordcloud e = Some wordcloud →
  Forall (reports_none_of (STOPWORDS wordcloud ∪ extra_stopword_set e args))
         (main e args).1.
Proof.
  intros Hw. apply main_report_events.
  - intros [[]| | |] H; try exact I; destruct H.
  - intros wordcloud' t stops all Hw' Hl.
    assert (wordcloud' = wordcloud) by congruence. subst wordcloud'.
    apply load_stopwords_value in Hl.
    assert (Hn : ∀ n, Forall (fun wc : str * nat =>
                                wc.1 ∉ STOPWORDS wordcloud ∪ extra_stopword_set e args)
                        (most_common n (Counter (remove_stopwords stops all)))).
    { intros n. apply Forall_forall. intros wc Hwc.
      apply most_common_elem, counted_not_stopword in Hwc. set_solver. }
    apply report_events_of; try exact I.
    + apply Hn.
    + apply Hn.
    + intros word. exact I.
Qed.

Lemma stopwords_never_reported_witness :
  import_wordcloud demo_env = Some demo_wordcloud
  ∧ Forall (reports_none_of
              (STOPWORDS demo_wordcloud
               ∪ extra_stopword_set demo_env (args_stopwords [] (lit "dots,wells"))))
      (main demo_env (args_stopwords [] (lit "dots,wells"))).1.
Proof.
  split; [reflexivity|].
  exact (stopwords_never_reported demo_env _ demo_wordcloud eq_refl).
Defined.

(** X12: every debug line of a run shows a filtered count that is the raw
    count, or 0. *)
Theorem debug_lines_consistent (e : Env) (args : Args) :
  Forall debug_consistent (main e args).1.
Proof.
  apply main_report_events.
  - intros [[]| | |] H; try exact I; destruct H.
  - intros wordcloud t stops all _ _.
    apply report_events_of; try exact I.
    + apply Forall_forall. intros wc _. exact I.
    + intros word. cbn [debug_consistent].
      rewrite !get_Counter, occ_remove_stopwords.
      destruct (decide (word ∈ stops)); split; auto; lia.
Qed.

Lemma Sorted_take {A} (R : A → A → Prop) n l : Sorted R l → Sorted R (take n l).
Proof.
  intros H. revert n. induction H as [|x l Hl IH Hx]; intros [|n];
    cbn [take]; try constructor.
  - apply IH.
  - destruct Hx as [|y l' Hy]; destruct n; cbn [take]; constructor. exact Hy.
Qed.

Lemma Sorted_weaken {A} (R S : A → A → Prop) l :
  (∀ x y, R x y → S x y) → Sorted R l → Sorted S l.
Proof.
  intros HRS. induction 1 as [|x l Hl IH Hx]; constructor; [exact IH|].
  destruct Hx; constructor. apply HRS. assumption.
Qed.

Lemma by_count_desc_asym x y :
  by_count_desc x y = true → by_count_desc y x = false.
Proof.
  unfold by_count_desc. rewrite Nat.ltb_lt, Nat.ltb_ge. lia.
Qed.

(** X13: the line of top words of a run lists at most 20 words, the
    highest count first. *)
Theorem top_words_sorted (e : Env) (args : Args) :
  Forall top_words_ok (main e args).1.
Proof.
  apply main_report_events.
  - intros [[]| | |] H; try exact I; destruct H.
  - intros wordcloud t stops all _ _.
    apply report_events_of; try exact I.
    + cbn [top_words_ok]. unfold most_common. split.
      * rewrite length_take. change (Z.to_nat 20) with 20%nat. lia.
      * apply Sorted_take.
        eapply Sorted_weaken; [|apply sorted_Sorted, by_count_desc_asym].
        intros x y H. unfold not_above, by_count_desc in H.
        apply Nat.ltb_ge in H. exact H.
    + apply Forall_forall. intros wc _. exact I.
    + intros word. exact I.
Qed.

(** ** Exit codes and files *)

(** X14: a run that returns a code returns 0 or 1. *)
Theorem exit_code_0_or_1 (e : Env) (args : Args) (code : Z) :
  exit_status (main e args) = Return code → code = 0%Z ∨ code = 1%Z.
Proof.
  unfold exit_status, main, finish.
  destruct (main_body_outcome e args) as [(Hv & _)|(_ & st & Hs & Hf)];
    destruct (main_body e args) as [t o]; cbn [fst snd] in *.
  - destruct Hv as [-> | ->]; cbn [snd]; intros H; [left|]; congruence.
  - subst o. cbn [snd]. intros H. right. destruct Hf; congruence.
Qed.

Lemma exit_code_0_or_1_witness :
  exit_status (main demo_env (args_input (lit "nowhere"))) = Return 1
  ∧ (1 = 0 ∨ 1 = 1)%Z.
Proof.
  split; [reflexivity|].
  exact (exit_code_0_or_1 demo_env (args_input (lit "nowhere")) 1 eq_refl).
Defined.

(** X15: a run reads no file but the stopwords file and the listed LaTeX
    files, and hands to the PDF extractor only listed PDF files, and only
    when no LaTeX file is listed. *)
Theorem run_touches_inputs_only (e : Env) (args : Args) :
  Forall (touches_inputs_only e args) (main e args).1.
Proof.
  apply main_events. unfold main_body.
  destruct (import_wordcloud e) as [wordcloud|]; [|repeat constructor].
  destruct (negb (exists_ e (input_dir e args))); [repeat constructor|].
  destruct (negb (truthy (tex_files e args)) && negb (truthy (pdfs e args)));
    [repeat constructor|].
  apply bind_events.
  { unfold load_stopwords. apply bind_events; [|intros s; constructor].
    destruct (exists_ e (stop_path e args)).
    - apply bind_events; [|intros text; constructor].
      apply read_text_events. left. reflexivity.
    - destruct (truthy (stopwords args)); repeat constructor. }
  intros stops. unfold process. apply bind_events.
  { unfold all_words. destruct (tex_files e args) as [|tex texs] eqn:Et;
      cbn [truthy].
    - destruct (import_pdfminer e) as [extract_text|]; [|repeat constructor].
      apply bind_events; [|intros ws; constructor].
      apply for_each_events_in, Forall_forall. intros p Hp.
      apply pdf_words_events. split; [exact Et|exact Hp].
    - apply bind_events; [|intros ws; constructor].
      apply for_each_events_in, Forall_forall. intros p Hp.
      apply tex_words_events. right. rewrite Et. exact Hp. }
  intros all. apply bind_events.
  { destruct (generate_from_frequencies _ _ _); constructor. }
  intros image. apply bind_events.
  { destruct (to_file _ _ _); repeat constructor. }
  intros _. apply bind_events; [|intros _; constructor].
  apply report_events_of; try exact I.
  - apply Forall_forall. intros wc _. exact I.
  - intros word. exact I.
Qed.
